(** * gpm: version resolution, lock store, cache naming and archive extraction

    A shallow embedding of the parts of the gpm package manager that decide
    its documented properties: the two version comparators, range resolution
    against a registry answer, the lock structure and its persisted form, the
    cache directory naming convention, archive extraction into the project
    tree and the cache, the install pipeline and the worker-pool scheduler.

    Go strings are byte strings; they are modelled by [string], one [ascii]
    per byte.  Go's [int] is the 64-bit integer of the usual platforms and is
    modelled by [Z] with the range checks of the parsing routines written
    out. *)

From Stdlib Require Import ZArith Ascii String List Bool Lia.
From stdpp Require Import base option list sorting gmap strings.

Local Open Scope Z_scope.

(** ** The Go string routines used by the program *)

Module GoStrings.

(** [strings.HasPrefix(s, p)] *)
Definition HasPrefix (s p : string) : bool := String.prefix p s.

(** [s[n:]] for [n <= len(s)] *)
Fixpoint drop_str (n : nat) (s : string) : string :=
  match n, s with
  | O, _ => s
  | S n', String _ s' => drop_str n' s'
  | S _, EmptyString => EmptyString
  end.

(** [strings.TrimPrefix(s, p)] *)
Definition TrimPrefix (s p : string) : string :=
  if HasPrefix s p then drop_str (String.length p) s else s.

(** [strings.HasSuffix(s, p)] and [strings.TrimSuffix(s, p)], through the
    reversed strings. *)
Definition HasSuffix (s p : string) : bool :=
  HasPrefix (String.rev s) (String.rev p).

Definition TrimSuffix (s p : string) : string :=
  if HasSuffix s p
  then String.rev (drop_str (String.length p) (String.rev s))
  else s.

(** [strings.Contains(s, sub)] *)
Fixpoint Contains (s sub : string) : bool :=
  HasPrefix s sub ||
  match s with
  | EmptyString => false
  | String _ s' => Contains s' sub
  end.

(** [strings.Split(s, sep)] for a non-empty separator: the pieces between
    the successive leftmost, non-overlapping occurrences of [sep].  [skip]
    counts the bytes of an occurrence that are still to be passed over. *)
Fixpoint split_go (sep : string) (skip : nat) (s : string) : list string :=
  match s with
  | EmptyString => [EmptyString]
  | String c s' =>
      match skip with
      | S k => split_go sep k s'
      | O =>
          if HasPrefix s sep
          then EmptyString :: split_go sep (Nat.pred (String.length sep)) s'
          else match split_go sep O s' with
               | piece :: rest => String c piece :: rest
               | [] => [String c EmptyString]
               end
      end
  end.

Definition Split (s sep : string) : list string := split_go sep O s.

(** [strings.Join(parts, sep)] *)
Fixpoint Join (parts : list string) (sep : string) : string :=
  match parts with
  | [] => EmptyString
  | [p] => p
  | p :: rest => p +:+ sep +:+ Join rest sep
  end.

(** [strings.ReplaceAll(s, old, new)] for a non-empty [old]. *)
Fixpoint replace_go (old new : string) (skip : nat) (s : string) : string :=
  match s with
  | EmptyString => EmptyString
  | String c s' =>
      match skip with
      | S k => replace_go old new k s'
      | O =>
          if HasPrefix s old
          then new +:+ replace_go old new (Nat.pred (String.length old)) s'
          else String c (replace_go old new O s')
      end
  end.

Definition ReplaceAll (s old new : string) : string := replace_go old new O s.

(** White space as [unicode.IsSpace] and the scanner of [fmt] see it: the
    ASCII characters tab, line feed, vertical tab, form feed, carriage
    return and space, and the UTF-8 encodings of U+0085, U+00A0, U+1680,
    U+2000..U+200A, U+2028, U+2029, U+202F, U+205F and U+3000. *)
Definition ascii_space (c : ascii) : bool :=
  let n := nat_of_ascii c in
  ((9 <=? n)%nat && (n <=? 13)%nat) || (n =? 32)%nat.

Definition byte_is (c : ascii) (n : nat) : bool := (nat_of_ascii c =? n)%nat.

Definition byte_in (c : ascii) (lo hi : nat) : bool :=
  ((lo <=? nat_of_ascii c)%nat && (nat_of_ascii c <=? hi)%nat).

(** Length in bytes of the white-space rune at the head of [s], [O] when
    the head is no white space. *)
Definition space_width (s : string) : nat :=
  match s with
  | String c0 r0 =>
      if ascii_space c0 then 1%nat
      else match r0 with
      | String c1 r1 =>
          if byte_is c0 194 && (byte_is c1 133 || byte_is c1 160) then 2%nat
          else match r1 with
          | String c2 _ =>
              if byte_is c0 225 && byte_is c1 154 && byte_is c2 128 then 3%nat
              else if byte_is c0 226 && byte_is c1 128 &&
                      (byte_in c2 128 138 || byte_is c2 168 ||
                       byte_is c2 169 || byte_is c2 175) then 3%nat
              else if byte_is c0 226 && byte_is c1 129 && byte_is c2 159 then 3%nat
              else if byte_is c0 227 && byte_is c1 128 && byte_is c2 128 then 3%nat
              else O
          | EmptyString => O
          end
      | EmptyString => O
      end
  | EmptyString => O
  end.

(** The same for the rune at the head of a reversed string, that is for the
    last rune of the string. *)
Definition space_width_rev (s : string) : nat :=
  match s with
  | String c0 r0 =>
      if ascii_space c0 then 1%nat
      else match r0 with
      | String c1 r1 =>
          if byte_is c1 194 && (byte_is c0 133 || byte_is c0 160) then 2%nat
          else match r1 with
          | String c2 _ =>
              if byte_is c2 225 && byte_is c1 154 && byte_is c0 128 then 3%nat
              else if byte_is c2 226 && byte_is c1 128 &&
                      (byte_in c0 128 138 || byte_is c0 168 ||
                       byte_is c0 169 || byte_is c0 175) then 3%nat
              else if byte_is c2 226 && byte_is c1 129 && byte_is c0 159 then 3%nat
              else if byte_is c2 227 && byte_is c1 128 && byte_is c0 128 then 3%nat
              else O
          | EmptyString => O
          end
      | EmptyString => O
      end
  | EmptyString => O
  end.

(** Drop the white-space runes at the head; [width] is [space_width] or
    [space_width_rev].  [skip] counts the bytes of the current rune still to
    be dropped. *)
Fixpoint trim_left_go (width : string -> nat) (skip : nat) (s : string) : string :=
  match s with
  | EmptyString => EmptyString
  | String _ s' =>
      match skip with
      | S k => trim_left_go width k s'
      | O =>
          match width s with
          | O => s
          | S k => trim_left_go width k s'
          end
      end
  end.

(** [strings.TrimSpace(s)] *)
Definition TrimSpace (s : string) : string :=
  String.rev
    (trim_left_go space_width_rev O
       (String.rev (trim_left_go space_width O s))).

End GoStrings.

Import GoStrings.

(** ** Number parsing: [fmt.Sscanf(s, "%d", &p)] and [strconv.Atoi] *)

Module GoNumbers.

Definition is_digit (c : ascii) : bool :=
  ((48 <=? nat_of_ascii c)%nat && (nat_of_ascii c <=? 57)%nat).

Definition is_sign (c : ascii) : bool :=
  byte_is c 43 || byte_is c 45.

Definition digit_val (c : ascii) : Z := Z.of_nat (nat_of_ascii c) - 48.

(** Value of a run of decimal digits, most significant first. *)
Fixpoint dec_go (acc : Z) (s : string) : Z :=
  match s with
  | EmptyString => acc
  | String c s' => dec_go (acc * 10 + digit_val c) s'
  end.

Definition dec_value (s : string) : Z := dec_go 0 s.

(** The longest prefix of decimal digits, and what follows it. *)
Fixpoint span_digits (s : string) : string * string :=
  match s with
  | String c s' =>
      if is_digit c
      then let '(d, r) := span_digits s' in (String c d, r)
      else (EmptyString, s)
  | EmptyString => (EmptyString, EmptyString)
  end.

Fixpoint all_digits (s : string) : bool :=
  match s with
  | EmptyString => true
  | String c s' => is_digit c && all_digits s'
  end.

Definition int_min : Z := - 2 ^ 63.
Definition int_max : Z := 2 ^ 63 - 1.

(** [strconv.ParseInt(tok, 10, 64)] on a token made of an optional sign
    and decimal digits: the value, or [None] for a syntax or range
    error. *)
Definition in_int_range (v : Z) : option Z :=
  if (int_min <=? v) && (v <=? int_max) then Some v else None.

Definition parse_signed (neg : bool) (digits : string) : option Z :=
  match digits with
  | EmptyString => None
  | _ =>
      if all_digits digits
      then in_int_range (if neg then - dec_value digits else dec_value digits)
      else None
  end.

(** [strconv.Atoi(s)] *)
Definition Atoi (s : string) : option Z :=
  match s with
  | EmptyString => None
  | String c r =>
      if byte_is c 45 then parse_signed true r
      else if byte_is c 43 then parse_signed false r
      else parse_signed false s
  end.

(** The white-space skipping of the scanner before a number
    ([ss.SkipSpace]): a line feed is an error for [Sscanf], every other
    white-space rune is passed over.  [None] is the error. *)
Fixpoint skip_space_go (skip : nat) (s : string) : option string :=
  match s with
  | EmptyString => Some EmptyString
  | String c s' =>
      match skip with
      | S k => skip_space_go k s'
      | O =>
          if byte_is c 10 then None
          else match space_width s with
               | O => Some s
               | S k => skip_space_go k s'
               end
      end
  end.

(** [fmt.Sscanf(s, "%d", &p)] with [p] zero beforehand: the value left in
    [p].  The scanner skips white space, accepts one sign, reads the
    longest run of decimal digits (at least one) and converts it with
    [ParseInt]; on any error [p] keeps its zero. *)
Definition scan_int (s : string) : option Z :=
  match skip_space_go O s with
  | None => None
  | Some EmptyString => None
  | Some (String c r as t) =>
      let '(neg, body) := if is_sign c then (byte_is c 45, r) else (false, t) in
      let '(digits, _) := span_digits body in
      parse_signed neg digits
  end.

Definition Sscanf_d (s : string) : Z := default 0 (scan_int s).

End GoNumbers.

Import GoNumbers.

(** ** The two version comparators *)

(** [PackageManager.compareVersions] of package_manager.go and
    [compareVersions] of upgrader.go share their loop; they differ in how a
    component is turned into a number. *)

Definition nth_part (parse : string -> Z) (parts : list string) (i : nat) : Z :=
  match parts !! i with
  | Some part => parse part
  | None => 0
  end.

(** The loop [for i := 0; i < maxLen; i++] of the method, with [n] the
    number of iterations left. *)
Fixpoint pm_compare_loop (parts1 parts2 : list string) (n i : nat) : Z :=
  match n with
  | O => 0
  | S n' =>
      let p1 := nth_part Sscanf_d parts1 i in
      let p2 := nth_part Sscanf_d parts2 i in
      if p1 >? p2 then 1
      else if p1 <? p2 then -1
      else pm_compare_loop parts1 parts2 n' (S i)
  end.

Definition pm_compareVersions (v1 v2 : string) : Z :=
  let parts1 := Split v1 "." in
  let parts2 := Split v2 "." in
  let maxLen := Nat.max (length parts1) (length parts2) in
  pm_compare_loop parts1 parts2 maxLen O.

(** upgrader.go *)
Definition parseVersionPart (part : string) : Z :=
  let cleaned := hd EmptyString (Split part "-") in
  let cleaned := hd EmptyString (Split cleaned "+") in
  match Atoi cleaned with
  | Some num => num
  | None => 0
  end.

Fixpoint compare_loop (parts1 parts2 : list string) (n i : nat) : Z :=
  match n with
  | O => 0
  | S n' =>
      let p1 := nth_part parseVersionPart parts1 i in
      let p2 := nth_part parseVersionPart parts2 i in
      if p1 <? p2 then -1
      else if p1 >? p2 then 1
      else compare_loop parts1 parts2 n' (S i)
  end.

Definition compareVersions (v1 v2 : string) : Z :=
  let parts1 := Split v1 "." in
  let parts2 := Split v2 "." in
  let maxLen := Nat.max (length parts1) (length parts2) in
  compare_loop parts1 parts2 maxLen O.

(** ** Version resolution (package_manager.go) *)

Record DistInfo := { Tarball : string; Shasum : string }.

Record PackageInfo := {
  pi_Name : string;
  pi_Version : string;
  Dist : DistInfo
}.

(** A decoded registry answer.  A field absent from the JSON document leaves
    a nil map, on which every lookup misses: the empty map. *)
Record RegistryResponse := {
  Versions : gmap string PackageInfo;
  DistTags : gmap string string
}.

(** Go leaves the order in which [for v := range availableVersions] visits
    the keys unspecified.  The loops below therefore take, next to the map,
    the sequence [order] in which the keys are visited; [range_order] says
    that it is an enumeration of the keys, and the theorems hold for every
    such sequence. *)
Definition range_order {A} (m : gmap string A) (order : list string) : Prop :=
  NoDup order /\ forall k, k ∈ order <-> is_Some (m !! k).

(** The body shared by the three selection loops:
    [if match(v) { if bestVersion == "" || compareVersions(v, bestVersion) > 0
    { bestVersion = v } }]. *)
Definition best_step (matches : string -> bool) (bestVersion v : string) : string :=
  if matches v
  then if String.eqb bestVersion "" || (pm_compareVersions v bestVersion >? 0)
       then v else bestVersion
  else bestVersion.

Definition best_loop (matches : string -> bool) (order : list string) : string :=
  fold_left (best_step matches) order EmptyString.

Definition caret_match (majorVersion v : string) : bool :=
  match Split v "." with
  | v0 :: _ => String.eqb v0 majorVersion
  | [] => false
  end.

Definition resolveSingleVersion (version : string)
    (availableVersions : gmap string PackageInfo) (order : list string) : string :=
  let version := TrimSpace version in
  let exact :=
    if bool_decide (is_Some (availableVersions !! version)) then version
    else EmptyString in
  let tilde :=
    if HasPrefix version "~"
    then let baseVersion := TrimPrefix version "~" in
         match Split baseVersion "." with
         | p0 :: p1 :: _ =>
             let majorMinor := p0 +:+ "." +:+ p1 in
             best_loop (fun v => HasPrefix v (majorMinor +:+ ".")) order
         | _ => exact
         end
    else exact in
  if Contains version "x"
  then let pattern := ReplaceAll version "x" "" in
       let pattern := TrimSuffix pattern "." in
       best_loop (fun v => HasPrefix v pattern) order
  else if HasPrefix version "^"
  then let baseVersion := TrimPrefix version "^" in
       match Split baseVersion "." with
       | majorVersion :: _ => best_loop (caret_match majorVersion) order
       | [] => tilde
       end
  else tilde.

(** The loop over the alternatives of a range with [||]. *)
Fixpoint first_resolved (parts : list string)
    (availableVersions : gmap string PackageInfo) (order : list string) : string :=
  match parts with
  | [] => EmptyString
  | part :: rest =>
      let part := TrimSpace part in
      let resolved := resolveSingleVersion part availableVersions order in
      if negb (String.eqb resolved "") then resolved
      else first_resolved rest availableVersions order
  end.

Definition resolveVersionRange (versionRange : string)
    (availableVersions : gmap string PackageInfo) (order : list string) : string :=
  if Contains versionRange "||"
  then first_resolved (Split versionRange "||") availableVersions order
  else resolveSingleVersion versionRange availableVersions order.

(** What the HTTP GET of the registry document came to: a transport error,
    or a status with the decoded body ([None] when it does not decode). *)
Inductive http_outcome :=
  | TransportError
  | Response (status : Z) (body : option RegistryResponse).

Inductive resolve_error :=
  | FetchFailed
  | PackageNotFound (packageName : string)
  | RegistryError (status : Z)
  | ParseFailed
  | NoLatestVersion (packageName : string)
  | CouldNotResolve (version packageName : string)
  | VersionNotFound (version packageName : string).

Inductive result (E A : Type) :=
  | Ok (a : A)
  | Err (e : E).
Arguments Ok {E A} a.
Arguments Err {E A} e.

Definition has_range_syntax (version : string) : bool :=
  Contains version "x" || Contains version "||" ||
  Contains version "^" || Contains version "~".

Definition lookup_version (registryResp : RegistryResponse)
    (version packageName : string) : result resolve_error PackageInfo :=
  match Versions registryResp !! version with
  | Some pkgInfo => Ok pkgInfo
  | None => Err (VersionNotFound version packageName)
  end.

Definition getPackageInfo (answer : http_outcome) (order : list string)
    (packageName version : string) : result resolve_error PackageInfo :=
  match answer with
  | TransportError => Err FetchFailed
  | Response status body =>
      if status =? 404 then Err (PackageNotFound packageName)
      else if negb (status =? 200) then Err (RegistryError status)
      else match body with
      | None => Err ParseFailed
      | Some registryResp =>
          if String.eqb version "latest"
          then match DistTags registryResp !! "latest" with
               | Some latestVersion =>
                   lookup_version registryResp latestVersion packageName
               | None => Err (NoLatestVersion packageName)
               end
          else if has_range_syntax version
          then let resolvedVersion :=
                 resolveVersionRange version (Versions registryResp) order in
               if String.eqb resolvedVersion ""
               then match DistTags registryResp !! "latest" with
                    | Some latestVersion =>
                        lookup_version registryResp latestVersion packageName
                    | None => Err (CouldNotResolve version packageName)
                    end
               else lookup_version registryResp resolvedVersion packageName
          else lookup_version registryResp version packageName
      end
  end.

(** ** Version strings on which the two comparators are compared *)

Definition is_letter (c : ascii) : bool :=
  byte_in c 65 90 || byte_in c 97 122.

(** A component is plain when it is empty, starts with an ASCII letter, or is
    a non-empty run of decimal digits followed by nothing or by [-] or [+]
    (and then anything). *)
Definition plain_part (part : string) : bool :=
  match span_digits part with
  | (EmptyString, EmptyString) => true
  | (EmptyString, String a _) => is_letter a
  | (String _ _, EmptyString) => true
  | (String _ _, String a _) => is_sign a
  end.

Definition plain_version (v : string) : bool :=
  forallb plain_part (Split v ".").

(** The part of [s] before the first occurrence of the byte [a]. *)
Fixpoint before (a : ascii) (s : string) : string :=
  match s with
  | EmptyString => EmptyString
  | String c s' => if Ascii.eqb c a then EmptyString else String c (before a s')
  end.

(** ** Ranges, versions and registry answers of the statements *)

(** The text of the first dot-separated component of a version. *)
Definition major_of (v : string) : string := hd EmptyString (Split v ".").

(** The [X], [Y] and [Z] of a range [^X.Y.Z]: decimal numbers. *)
Definition nonempty_digits (s : string) : Prop :=
  s <> EmptyString /\ all_digits s = true.

(** The numbers that the comparator of the resolver reads off a version:
    its components through [Sscanf], and zero past the last one. *)
Definition version_key (v : string) : nat -> Z :=
  nth_part Sscanf_d (Split v ".").

(** The loop of the comparator on two such sequences. *)
Fixpoint seq_compare (f g : nat -> Z) (n i : nat) : Z :=
  match n with
  | O => 0
  | S n' =>
      if f i >? g i then 1
      else if f i <? g i then -1
      else seq_compare f g n' (S i)
  end.

(** What holds of [bestVersion] once a selection loop has visited the
    versions [seen]: it is empty and none of them matched, or it is one of
    them, matches, and no matching one is above it. *)
Definition best_inv (matches : string -> bool) (seen : list string)
    (bestVersion : string) : Prop :=
  (bestVersion = EmptyString /\ forall v, v ∈ seen -> matches v = false) \/
  (bestVersion ∈ seen /\ matches bestVersion = true /\
   forall v, v ∈ seen -> matches v = true ->
             pm_compareVersions v bestVersion <= 0).

(** A registry version table with one entry per listed version. *)
Definition info_for (packageName v : string) : PackageInfo :=
  {| pi_Name := packageName; pi_Version := v;
     Dist := {| Tarball := "https://registry.npmjs.org/" +:+ packageName +:+
                           "/-/" +:+ packageName +:+ "-" +:+ v +:+ ".tgz";
                Shasum := EmptyString |} |}.

Definition version_table (packageName : string) (vs : list string)
    : gmap string PackageInfo :=
  list_to_map ((fun v => (v, info_for packageName v)) <$> vs).

(** C4 as it is stated: whenever no rule yields a version for a range other
    than [latest] and the answer carries a [latest] dist-tag, the lookup
    continues with the tagged version. *)
Definition fallback_as_stated (registryResp : RegistryResponse)
    (order : list string) (packageName version : string) : Prop :=
  version <> "latest" ->
  resolveVersionRange version (Versions registryResp) order = EmptyString ->
  forall latestVersion,
    DistTags registryResp !! "latest" = Some latestVersion ->
    getPackageInfo (Response 200 (Some registryResp)) order packageName version =
    lookup_version registryResp latestVersion packageName.

(** A registry answer with the single version 1.0.0, tagged [latest]. *)
Definition single_version_answer : RegistryResponse :=
  {| Versions := version_table "left-pad" ["1.0.0"];
     DistTags := {["latest" := "1.0.0"]} |}.

(** ** The lock structure (lockfile.go) *)

Record LockPackage := {
  lp_Name : string;
  lp_Version : string;
  Resolved : string;
  Integrity : string;
  Dependencies : gmap string string;
  DevDep : bool
}.

(** Reading, ranging over and deleting from a nil Go map behave as on an
    empty map, and [loadLockFile] never hands out a nil map; nil and empty
    are therefore one value, the empty [gmap].  The mutex is left out: the
    operations are modelled one at a time. *)
Record LockFile := {
  lf_Version : string;
  CreatedAt : Z;
  Packages : gmap string LockPackage;
  Specifiers : gmap string string;
  DevPackages : gmap string string
}.

Definition lockFileName : string := "gpm-lock.yaml".

(** [fmt.Sprintf("%s@%s", name, version)] *)
Definition packageKey (name version : string) : string :=
  name +:+ "@" +:+ version.

(** The entries of a map in the order a [range] loop visits its keys. *)
Definition range_entries {A} (m : gmap string A) (order : list string)
    : list (string * A) :=
  omap (fun k => (fun v => (k, v)) <$> m !! k) order.

(** [addPackage]; [deps] is what [getPackageDependencies(name)] read from the
    installed manifest (the empty map when there is none). *)
Definition addPackage (name version specifier : string) (isDev : bool)
    (deps : gmap string string) (lf : LockFile) : LockFile :=
  let lockPkg :=
    {| lp_Name := name;
       lp_Version := version;
       Resolved := "https://registry.npmjs.org/" +:+ name +:+ "/-/" +:+
                   name +:+ "-" +:+ version +:+ ".tgz";
       Integrity := EmptyString;
       Dependencies := deps;
       DevDep := isDev |} in
  {| lf_Version := lf_Version lf;
     CreatedAt := CreatedAt lf;
     Packages := <[packageKey name version := lockPkg]> (Packages lf);
     Specifiers := <[name := specifier]> (Specifiers lf);
     DevPackages := if isDev then <[name := specifier]> (DevPackages lf)
                    else DevPackages lf |}.

Definition hasPackage (name version : string) (lf : LockFile) : bool :=
  bool_decide (is_Some (Packages lf !! packageKey name version)).

(** [getPackageVersion]: the version of the first entry with the name that
    the loop comes across. *)
Definition getPackageVersion (order : list string) (name : string)
    (lf : LockFile) : string :=
  match filter (fun e => lp_Name e.2 = name) (range_entries (Packages lf) order) with
  | (_, pkg) :: _ => lp_Version pkg
  | [] => EmptyString
  end.

(** [removePackage] *)
Definition removePackage (order : list string) (name : string)
    (lf : LockFile) : LockFile :=
  let keysToRemove :=
    (filter (fun e => lp_Name e.2 = name) (range_entries (Packages lf) order)).*1 in
  {| lf_Version := lf_Version lf;
     CreatedAt := CreatedAt lf;
     Packages := fold_left (fun m keyToRemove => delete keyToRemove m)
                   keysToRemove (Packages lf);
     Specifiers := delete name (Specifiers lf);
     DevPackages := delete name (DevPackages lf) |}.

(** What [loadLockFile] returns when there is no lock document. *)
Definition fresh_lock (now : Z) : LockFile :=
  {| lf_Version := "1.0"; CreatedAt := now;
     Packages := ∅; Specifiers := ∅; DevPackages := ∅ |}.

(** A lock structure with two packages, one of them a dev dependency. *)
Definition two_package_lock : LockFile :=
  addPackage "chalk" "5.3.0" "chalk@^5.0.0" true {["ansi-styles" := "^6.1.0"]}
    (addPackage "left-pad" "1.3.0" "left-pad" false ∅ (fresh_lock 0)).

(** ** The persisted lock document *)

(** The lock structure is written with [yaml.Marshal] and read with
    [yaml.Unmarshal] of gopkg.in/yaml.v3.  A YAML document is modelled by its
    tree of tagged nodes; what the struct tags of [LockFile] and
    [LockPackage] decide (key names, [omitempty], the skipped mutex) is
    modelled on that tree.  The text of the document is the library's
    business and appears below only through an encoder and a decoder of
    trees. *)
Unset Elimination Schemes.
Inductive yaml :=
  | YStr (s : string)
  | YBool (b : bool)
  | YTime (t : Z)
  | YMap (fields : list (string * yaml)).
Set Elimination Schemes.

(** A field without [omitempty], and the three kinds with it. *)
Definition field (key : string) (y : yaml) : list (string * yaml) := [(key, y)].

Definition field_omitempty_str (key s : string) : list (string * yaml) :=
  if String.eqb s "" then [] else [(key, YStr s)].

Definition field_omitempty_bool (key : string) (b : bool) : list (string * yaml) :=
  if b then [(key, YBool true)] else [].

Definition marshal_strings (m : gmap string string) : yaml :=
  YMap ((fun e => (e.1, YStr e.2)) <$> map_to_list m).

Definition field_omitempty_strings (key : string) (m : gmap string string)
    : list (string * yaml) :=
  if bool_decide (m = ∅) then [] else [(key, marshal_strings m)].

Definition marshalLockPackage (p : LockPackage) : yaml :=
  YMap (field "name" (YStr (lp_Name p)) ++
        field "version" (YStr (lp_Version p)) ++
        field "resolved" (YStr (Resolved p)) ++
        field_omitempty_str "integrity" (Integrity p) ++
        field_omitempty_strings "dependencies" (Dependencies p) ++
        field_omitempty_bool "dev" (DevDep p)).

Definition marshal_packages (m : gmap string LockPackage) : yaml :=
  YMap ((fun e => (e.1, marshalLockPackage e.2)) <$> map_to_list m).

Definition marshalLockFile (lf : LockFile) : yaml :=
  YMap (field "lockfileVersion" (YStr (lf_Version lf)) ++
        field "createdAt" (YTime (CreatedAt lf)) ++
        field "packages" (marshal_packages (Packages lf)) ++
        field "specifiers" (marshal_strings (Specifiers lf)) ++
        field_omitempty_strings "devPackages" (DevPackages lf)).

(** Decoding.  A key that occurs twice in a mapping, and a node of the wrong
    kind for its field, are decoding errors ([None]); a key that no field
    carries is ignored and a field without key keeps its zero value. *)
Definition yaml_field (key : string) (fields : list (string * yaml)) : option yaml :=
  snd <$> List.find (fun e => String.eqb e.1 key) fields.

Definition decode_field {A} (decode : yaml -> option A) (zero : A)
    (key : string) (fields : list (string * yaml)) : option A :=
  match yaml_field key fields with
  | Some y => decode y
  | None => Some zero
  end.

Definition decode_str (y : yaml) : option string :=
  match y with YStr s => Some s | _ => None end.

Definition decode_bool (y : yaml) : option bool :=
  match y with YBool b => Some b | _ => None end.

Definition decode_time (y : yaml) : option Z :=
  match y with YTime t => Some t | _ => None end.

Definition decode_map {A} (decode : yaml -> option A) (y : yaml)
    : option (gmap string A) :=
  match y with
  | YMap fields =>
      if bool_decide (NoDup fields.*1)
      then list_to_map <$> mapM (fun e => (fun v => (e.1, v)) <$> decode e.2) fields
      else None
  | _ => None
  end.

Definition unmarshalLockPackage (y : yaml) : option LockPackage :=
  match y with
  | YMap fields =>
      if bool_decide (NoDup fields.*1) then
        name ← decode_field decode_str EmptyString "name" fields;
        version ← decode_field decode_str EmptyString "version" fields;
        resolved ← decode_field decode_str EmptyString "resolved" fields;
        integrity ← decode_field decode_str EmptyString "integrity" fields;
        deps ← decode_field (decode_map decode_str) ∅ "dependencies" fields;
        dev ← decode_field decode_bool false "dev" fields;
        Some {| lp_Name := name; lp_Version := version; Resolved := resolved;
                Integrity := integrity; Dependencies := deps; DevDep := dev |}
      else None
  | _ => None
  end.

(** The struct as [yaml.Unmarshal] leaves it: a map field without key is a
    nil map, [None]. *)
Record DecodedLockFile := {
  d_Version : string;
  d_CreatedAt : Z;
  d_Packages : option (gmap string LockPackage);
  d_Specifiers : option (gmap string string);
  d_DevPackages : option (gmap string string)
}.

Definition unmarshalLockFile (y : yaml) : option DecodedLockFile :=
  match y with
  | YMap fields =>
      if bool_decide (NoDup fields.*1) then
        version ← decode_field decode_str EmptyString "lockfileVersion" fields;
        createdAt ← decode_field decode_time 0 "createdAt" fields;
        packages ← decode_field (fun y => Some <$> decode_map unmarshalLockPackage y)
                      None "packages" fields;
        specifiers ← decode_field (fun y => Some <$> decode_map decode_str y)
                      None "specifiers" fields;
        devPackages ← decode_field (fun y => Some <$> decode_map decode_str y)
                      None "devPackages" fields;
        Some {| d_Version := version; d_CreatedAt := createdAt;
                d_Packages := packages; d_Specifiers := specifiers;
                d_DevPackages := devPackages |}
      else None
  | _ => None
  end.

Inductive lock_error :=
  | ReadLockFailed
  | ParseLockFailed
  | WriteLockFailed.

Section LockDocument.

(** The bytes of a file, and the text layer of the YAML library. *)
Variable bytes : Type.
Variable yaml_encode : yaml -> bytes.
Variable yaml_decode : bytes -> option yaml.

(** [loadLockFile]: [disk] is the content of gpm-lock.yaml, [None] when the
    file does not exist; [read_ok] says whether [os.ReadFile] succeeds and
    [now] is the clock. *)
Definition loadLockFile (now : Z) (read_ok : bool) (disk : option bytes)
    : result lock_error LockFile :=
  match disk with
  | None => Ok (fresh_lock now)
  | Some data =>
      if read_ok then
        match yaml_decode data ≫= unmarshalLockFile with
        | None => Err ParseLockFailed
        | Some lockFile =>
            Ok {| lf_Version := d_Version lockFile;
                  CreatedAt := d_CreatedAt lockFile;
                  Packages := default ∅ (d_Packages lockFile);
                  Specifiers := default ∅ (d_Specifiers lockFile);
                  DevPackages := default ∅ (d_DevPackages lockFile) |}
        end
      else Err ReadLockFailed
  end.

(** [saveLockFile]: the structure with its refreshed time stamp, the disk
    afterwards and the error, if any. *)
Definition saveLockFile (now : Z) (write_ok : bool) (lf : LockFile)
    (disk : option bytes) : LockFile * option bytes * option lock_error :=
  let lf := {| lf_Version := lf_Version lf; CreatedAt := now;
               Packages := Packages lf; Specifiers := Specifiers lf;
               DevPackages := DevPackages lf |} in
  let data := yaml_encode (marshalLockFile lf) in
  if write_ok then (lf, Some data, None)
  else (lf, disk, Some WriteLockFailed).

End LockDocument.

(** ** Paths ([path/filepath] on a Unix system) *)

Module filepath.

(** One step of [Clean] over the components of a path: [stack] holds the
    components kept so far, innermost first. *)
Definition clean_step (rooted : bool) (stack : list string) (c : string)
    : list string :=
  if String.eqb c "" || String.eqb c "." then stack
  else if String.eqb c ".." then
    match stack with
    | top :: below => if String.eqb top ".." then c :: stack else below
    | [] => if rooted then [] else [c]
    end
  else c :: stack.

Definition clean_components (rooted : bool) (comps : list string) : list string :=
  rev (fold_left (clean_step rooted) comps []).

(** [filepath.Clean] *)
Definition Clean (path : string) : string :=
  if String.eqb path "" then "."
  else
    let rooted := HasPrefix path "/" in
    let comps := clean_components rooted (Split path "/") in
    if rooted then "/" +:+ GoStrings.Join comps "/"
    else match comps with
         | [] => "."
         | _ => GoStrings.Join comps "/"
         end.

(** [filepath.Join]: the elements from the first non-empty one on, joined
    with the separator and cleaned. *)
Fixpoint Join (elem : list string) : string :=
  match elem with
  | [] => EmptyString
  | e :: rest =>
      if String.eqb e "" then Join rest
      else Clean (GoStrings.Join elem "/")
  end.

(** The part of the path up to and including its last separator, and the
    part after it. *)
Fixpoint split_last (path : string) : string * string :=
  match path with
  | EmptyString => (EmptyString, EmptyString)
  | String c rest =>
      let '(dir, file) := split_last rest in
      if Contains rest "/" then (String c dir, file)
      else if Ascii.eqb c "/" then (String c EmptyString, rest)
      else (EmptyString, path)
  end.

(** [filepath.Dir] *)
Definition Dir (path : string) : string := Clean (split_last path).1.

(** Without its trailing separators. *)
Definition strip_trailing_slashes (path : string) : string :=
  String.rev
    ((fix strip (s : string) : string :=
        match s with
        | String c rest => if Ascii.eqb c "/" then strip rest else s
        | EmptyString => EmptyString
        end) (String.rev path)).

(** [filepath.Base] *)
Definition Base (path : string) : string :=
  if String.eqb path "" then "."
  else
    let path := strip_trailing_slashes path in
    let path := (split_last path).2 in
    if String.eqb path "" then "/" else path.

End filepath.

(** ** The file system *)

(** A file system is the finite map from cleaned paths to what is there.
    The model has no symbolic links, no permission bits and no failing
    device: an operation fails only for the shape of the tree (a file where a
    directory is needed, and the like).  The current directory, the root and
    the directories above the current one are always there. *)
Inductive node :=
  | DirNode
  | FileNode (content : string).

Global Instance node_eq_dec : EqDecision node.
Proof. solve_decision. Defined.

Inductive fs_error :=
  | ENOENT (path : string)
  | ENOTDIR (path : string)
  | EISDIR (path : string)
  | EINVAL (path : string).

Definition only_dotdot (k : string) : bool :=
  forallb (fun c => String.eqb c "..") (Split k "/").

Definition implicit_dir (k : string) : bool :=
  String.eqb k "." || String.eqb k "/" || only_dotdot k.

(** What is at the cleaned path [k]. *)
Definition stat_key (fs : gmap string node) (k : string) : option node :=
  if implicit_dir k then Some DirNode else fs !! k.

(** [os.Stat] / [os.Lstat] *)
Definition fs_stat (fs : gmap string node) (path : string) : option node :=
  stat_key fs (filepath.Clean path).

Definition is_dir (fs : gmap string node) (path : string) : bool :=
  match fs_stat fs path with
  | Some DirNode => true
  | _ => false
  end.

(** The path and the directories above it, innermost first, up to the first
    implicit directory. *)
Fixpoint chain_of (rooted : bool) (rev_comps : list string) : list string :=
  match rev_comps with
  | [] => []
  | _ :: above =>
      let k := (if rooted then "/" else EmptyString) +:+
               GoStrings.Join (rev rev_comps) "/" in
      if implicit_dir k then [] else k :: chain_of rooted above
  end.

Definition path_chain (k : string) : list string :=
  let rooted := HasPrefix k "/" in
  let comps := filter (fun c => c <> EmptyString) (Split k "/") in
  chain_of rooted (rev comps).

(** [os.MkdirAll]: nothing to do where a directory is, an error where a
    file is; otherwise the same for the parent, and then the directory
    itself is made.  [mkdir_chain] follows the chain of the parents. *)
Fixpoint mkdir_chain (fs : gmap string node) (chain : list string)
    : result fs_error (gmap string node) :=
  match chain with
  | [] => Ok fs
  | k :: parents =>
      match fs !! k with
      | Some DirNode => Ok fs
      | Some (FileNode _) => Err (ENOTDIR k)
      | None =>
          match mkdir_chain fs parents with
          | Ok fs' => Ok (<[k := DirNode]> fs')
          | Err e => Err e
          end
      end
  end.

Definition MkdirAll (fs : gmap string node) (path : string)
    : result fs_error (gmap string node) :=
  let k := filepath.Clean path in
  match stat_key fs k with
  | Some DirNode => Ok fs
  | Some (FileNode _) => Err (ENOTDIR k)
  | None => mkdir_chain fs (path_chain k)
  end.

(** Whether the cleaned path [k'] lies strictly below the directory [k]. *)
Definition below (k k' : string) : bool :=
  if String.eqb k "/" then HasPrefix k' "/" && negb (String.eqb k' "/")
  else HasPrefix k' (k +:+ "/").

(** [os.RemoveAll]: refuses a path that ends in a dot, removes the path and
    all below it otherwise, and is content when there is nothing. *)
Definition RemoveAll (fs : gmap string node) (path : string)
    : result fs_error (gmap string node) :=
  if String.eqb path "" then Ok fs
  else if String.eqb path "." || HasSuffix path "/." then Err (EINVAL path)
  else
    let k := filepath.Clean path in
    Ok (filter (fun e => negb (String.eqb e.1 k || below k e.1) = true) fs).

(** [os.OpenFile(path, O_CREATE|O_WRONLY|O_TRUNC, mode)], the copy of
    [content] into the file, and [Close]. *)
Definition write_file (fs : gmap string node) (path content : string)
    : result fs_error (gmap string node) :=
  let k := filepath.Clean path in
  if negb (is_dir fs (filepath.Dir k)) then Err (ENOENT path)
  else if is_dir fs k then Err (EISDIR path)
  else Ok (<[k := FileNode content]> fs).

(** [os.ReadFile] *)
Definition ReadFile (fs : gmap string node) (path : string)
    : result fs_error string :=
  match fs_stat fs path with
  | Some (FileNode content) => Ok content
  | Some DirNode => Err (EISDIR path)
  | None => Err (ENOENT path)
  end.


(** ** SHA-256 and hexadecimal encoding ([crypto/sha256], [encoding/hex]) *)

Module sha256.

Definition wrap32 (x : Z) : Z := x mod 2 ^ 32.

Definition rotr (n x : Z) : Z :=
  Z.lor (Z.shiftr x n) (wrap32 (Z.shiftl x (32 - n))).

Definition not32 (x : Z) : Z := 2 ^ 32 - 1 - x.

Definition small_sigma0 (x : Z) : Z :=
  Z.lxor (Z.lxor (rotr 7 x) (rotr 18 x)) (Z.shiftr x 3).

Definition small_sigma1 (x : Z) : Z :=
  Z.lxor (Z.lxor (rotr 17 x) (rotr 19 x)) (Z.shiftr x 10).

Definition big_sigma0 (x : Z) : Z :=
  Z.lxor (Z.lxor (rotr 2 x) (rotr 13 x)) (rotr 22 x).

Definition big_sigma1 (x : Z) : Z :=
  Z.lxor (Z.lxor (rotr 6 x) (rotr 11 x)) (rotr 25 x).

Definition Ch (e f g : Z) : Z := Z.lxor (Z.land e f) (Z.land (not32 e) g).

Definition Maj (a b c : Z) : Z :=
  Z.lxor (Z.lxor (Z.land a b) (Z.land a c)) (Z.land b c).

(** The round constants: the first 32 bits of the fractional parts of the
    cube roots of the first 64 primes. *)
Definition K : list Z :=
  [1116352408; 1899447441; 3049323471; 3921009573; 961987163;
   1508970993; 2453635748; 2870763221; 3624381080; 310598401;
   607225278; 1426881987; 1925078388; 2162078206; 2614888103;
   3248222580; 3835390401; 4022224774; 264347078; 604807628;
   770255983; 1249150122; 1555081692; 1996064986; 2554220882;
   2821834349; 2952996808; 3210313671; 3336571891; 3584528711;
   113926993; 338241895; 666307205; 773529912; 1294757372;
   1396182291; 1695183700; 1986661051; 2177026350; 2456956037;
   2730485921; 2820302411; 3259730800; 3345764771; 3516065817;
   3600352804; 4094571909; 275423344; 430227734; 506948616;
   659060556; 883997877; 958139571; 1322822218; 1537002063;
   1747873779; 1955562222; 2024104815; 2227730452; 2361852424;
   2428436474; 2756734187; 3204031479; 3329325298].

(** The initial hash value: the same of the square roots of the first 8
    primes. *)
Definition init : list Z :=
  [1779033703; 3144134277; 1013904242; 2773480762; 1359893119;
   2600822924; 528734635; 1541459225].

(** The message with its padding: the byte 0x80, zero bytes up to 56 modulo
    64, and the length in bits as a 64-bit big-endian number. *)
Definition be_bytes (width : nat) (x : Z) : list Z :=
  (fun i => Z.shiftr x (8 * Z.of_nat (width - 1 - i)) mod 256) <$> seq 0 width.

Definition pad (msg : list Z) : list Z :=
  let len := Z.of_nat (length msg) in
  let zeros := Z.to_nat ((55 - len) mod 64) in
  msg ++ [128] ++ replicate zeros 0 ++ be_bytes 8 (8 * len).

Fixpoint be_words (fuel : nat) (bs : list Z) : list Z :=
  match fuel, bs with
  | S fuel', b0 :: b1 :: b2 :: b3 :: rest =>
      (((b0 * 256 + b1) * 256 + b2) * 256 + b3) :: be_words fuel' rest
  | _, _ => []
  end.

(** The message schedule: [w] holds the words so far, latest first. *)
Fixpoint schedule (n : nat) (w : list Z) : list Z :=
  match n with
  | O => rev w
  | S n' =>
      let x := wrap32 (small_sigma1 (nth 1 w 0) + nth 6 w 0 +
                       small_sigma0 (nth 14 w 0) + nth 15 w 0) in
      schedule n' (x :: w)
  end.

Definition round (s : list Z) (kw : Z * Z) : list Z :=
  match s with
  | [a; b; c; d; e; f; g; h] =>
      let t1 := h + big_sigma1 e + Ch e f g + kw.1 + kw.2 in
      let t2 := big_sigma0 a + Maj a b c in
      [wrap32 (t1 + t2); a; b; c; wrap32 (d + t1); e; f; g]
  | _ => s
  end.

Definition compress (h : list Z) (block : list Z) : list Z :=
  let w := schedule 48 (rev block) in
  let s := fold_left round (zip K w) h in
  zip_with (fun x y => wrap32 (x + y)) h s.

Fixpoint blocks (fuel : nat) (ws : list Z) : list (list Z) :=
  match fuel with
  | O => []
  | S fuel' =>
      match ws with
      | [] => []
      | _ => take 16 ws :: blocks fuel' (drop 16 ws)
      end
  end.

(** [sha256.Sum256]: the 32 bytes of the digest. *)
Definition Sum256 (data : string) : list Z :=
  let msg := (fun c => Z.of_nat (nat_of_ascii c)) <$> list_ascii_of_string data in
  let padded := pad msg in
  let ws := be_words (length padded) padded in
  let h := fold_left compress (blocks (length ws) ws) init in
  h ≫= be_bytes 4.

End sha256.

Module hex.

Definition digit (x : Z) : ascii :=
  ascii_of_nat (Z.to_nat (if x <? 10 then 48 + x else 87 + x)).

(** [hex.EncodeToString] *)
Fixpoint EncodeToString (bs : list Z) : string :=
  match bs with
  | [] => EmptyString
  | b :: rest => String (digit (b / 16)) (String (digit (b mod 16)) (EncodeToString rest))
  end.

End hex.

Arguments sha256.Sum256 : simpl never.

(** ** The package cache (cache.go) *)

Record Cache := { cacheDir : string }.

(** [s[:n]] *)
Definition take_str (n : nat) (s : string) : string := String.substring 0 n s.

(** The name of the cache subdirectory of a package version:
    [fmt.Sprintf("%s-%s-%s", name, version, hashStr)]. *)
Definition cache_entry_name (name version : string) : string :=
  let hash := sha256.Sum256 (name +:+ "@" +:+ version) in
  let hashStr := take_str 12 (hex.EncodeToString hash) in
  name +:+ "-" +:+ version +:+ "-" +:+ hashStr.

Definition getPackagePath (c : Cache) (name version : string) : string :=
  filepath.Join [cacheDir c; cache_entry_name name version].

Definition cache_hasPackage (c : Cache) (fs : gmap string node)
    (name version : string) : bool :=
  bool_decide (is_Some (fs_stat fs (getPackagePath c name version))).

(** ** Walking a directory ([filepath.Walk]) *)

(** Lexical order of two paths, component by component: the order in which
    the walk comes to them. *)
Fixpoint comps_leb (a b : list string) : bool :=
  match a, b with
  | [], _ => true
  | _ :: _, [] => false
  | x :: a', y :: b' =>
      match String.compare x y with
      | Lt => true
      | Gt => false
      | Eq => comps_leb a' b'
      end
  end.

Definition walk_before (a b : string * node) : Prop :=
  Is_true (comps_leb (Split a.1 "/") (Split b.1 "/")).

Global Instance walk_before_dec a b : Decision (walk_before a b).
Proof. unfold walk_before. apply _. Defined.

(** What the walk of [root] visits, with the path handed to the callback:
    the root as it was given, then everything below it.  [None] when the
    root is not there.  The entries are those of the tree when the walk
    starts; the roots that the program walks are the cache root and the
    cache directory of a package, never the current directory. *)
Definition walk (fs : gmap string node) (root : string)
    : option (list (string * node)) :=
  match fs_stat fs root with
  | None => None
  | Some (FileNode content) => Some [(root, FileNode content)]
  | Some DirNode =>
      let k := filepath.Clean root in
      Some ((root, DirNode) ::
            merge_sort walk_before
              (filter (fun e => below k e.1 = true) (map_to_list fs)))
  end.

(** [filepath.Rel(root, path)] for a path that the walk of [root] visits. *)
Definition walk_rel (root path : string) : string :=
  if String.eqb path root then "."
  else
    let k := filepath.Clean root in
    if String.eqb k "/" then drop_str 1 path
    else drop_str (String.length k + 1) path.

Record CachedPackage := {
  cp_Name : string;
  cp_Version : string;
  cp_Path : string
}.

(** What [listPackages] reads off the name of a directory: with three
    hyphen-separated parts or more, the second-to-last part is the version
    and the parts before it, joined again, are the package name. *)
Definition parse_entry_name (name : string) : option (string * string) :=
  let parts := Split name "-" in
  if (3 <=? length parts)%nat then
    let version := default EmptyString (parts !! (length parts - 2)%nat) in
    let packageName := GoStrings.Join (take (length parts - 2) parts) "-" in
    Some (packageName, version)
  else None.

(** The callback of [listPackages] on one visited path. *)
Definition list_entry (c : Cache) (packages : list CachedPackage)
    (e : string * node) : list CachedPackage :=
  let '(path, info) := e in
  match info with
  | DirNode =>
      if negb (String.eqb path (cacheDir c)) then
        let relPath := walk_rel (cacheDir c) path in
        if negb (Contains relPath "/") then
          let name := filepath.Base path in
          match parse_entry_name name with
          | Some (packageName, version) =>
              packages ++ [{| cp_Name := packageName; cp_Version := version;
                              cp_Path := path |}]
          | None => packages
          end
        else packages
      else packages
  | FileNode _ => packages
  end.

(** [listPackages]: the packages and whether the walk failed. *)
Definition listPackages (c : Cache) (fs : gmap string node)
    : list CachedPackage * option fs_error :=
  match walk fs (cacheDir c) with
  | None => ([], Some (ENOENT (cacheDir c)))
  | Some entries => (fold_left (list_entry c) entries [], None)
  end.


(** ** Operations in sequence *)

(** A program step returns its result, or the error it stopped with, and
    the state it leaves. *)
Definition prog (S E A : Type) : Type := S -> result E A * S.

Definition io_ret {S E A} (a : A) : prog S E A := fun s => (Ok a, s).

Definition io_fail {S E A} (e : E) : prog S E A := fun s => (Err e, s).

Definition io_bind {S E A B} (m : prog S E A) (k : A -> prog S E B) : prog S E B :=
  fun s =>
    match m s with
    | (Ok a, s') => k a s'
    | (Err e, s') => (Err e, s')
    end.

Notation "'do' x <- m ; k" := (io_bind m (fun x => k))
  (at level 10, x name, m at level 100, k at level 200).
Notation "m ;; k" := (io_bind m (fun _ => k))
  (at level 100, k at level 200, right associativity).

(** What a step came to, with the error turned into a value: the [err] of
    the Go code that is looked at and not returned. *)
Definition io_try {S E E' A} (m : prog S E A) : prog S E' (result E A) :=
  fun s => let '(r, s') := m s in (Ok r, s').

Definition io_map_err {S E E' A} (f : E -> E') (m : prog S E A) : prog S E' A :=
  fun s =>
    match m s with
    | (Ok a, s') => (Ok a, s')
    | (Err e, s') => (Err (f e), s')
    end.

(** Steps on the file system. *)
Abbreviation io E A := (prog (gmap string node) E A).

(** An operation that changes the tree or fails without changing it. *)
Definition io_update (op : gmap string node -> result fs_error (gmap string node))
    : io fs_error unit :=
  fun fs =>
    match op fs with
    | Ok fs' => (Ok tt, fs')
    | Err e => (Err e, fs)
    end.

(** ** Archive extraction (package_manager.go) *)

Inductive typeflag :=
  | TypeReg
  | TypeDir
  | TypeOther.

Record tar_header := {
  h_Name : string;
  h_Typeflag : typeflag;
  h_content : string
}.

(** A tar stream: the entries that [Next] hands out, and whether the stream
    then ends ([io.EOF]) or breaks off with a read error. *)
Record tar_stream := {
  entries : list tar_header;
  ends_with_EOF : bool
}.

Inductive extract_error :=
  | FsError (e : fs_error)
  | TarError.

Definition lift_fs {A} (m : io fs_error A) : io extract_error A :=
  io_map_err FsError m.

(** The test that sends the loop on to the next entry although the entry
    has something after [package/]: the cleaned target is neither the cleaned
    destination nor below it. *)
Definition outside_destination (destPath target : string) : bool :=
  let cleanDest := filepath.Clean destPath in
  let cleanTarget := filepath.Clean target in
  negb (HasPrefix cleanTarget (cleanDest +:+ "/")) &&
  negb (String.eqb cleanTarget cleanDest).

(** One round of the loop of [extractAndCache], for the header that [Next]
    returned. *)
Definition extract_entry (destPath cachePath : string) (header : tar_header)
    : io extract_error unit :=
  let path := TrimPrefix (h_Name header) "package/" in
  if String.eqb path "" || String.eqb path (h_Name header) then io_ret tt
  else
    let target := filepath.Join [destPath; path] in
    let cacheTarget := filepath.Join [cachePath; path] in
    if outside_destination destPath target then io_ret tt
    else
      match h_Typeflag header with
      | TypeDir =>
          lift_fs (io_update (fun fs => MkdirAll fs target)) ;;
          lift_fs (io_update (fun fs => MkdirAll fs cacheTarget))
      | TypeReg =>
          lift_fs (io_update (fun fs => MkdirAll fs (filepath.Dir target))) ;;
          lift_fs (io_update (fun fs => MkdirAll fs (filepath.Dir cacheTarget))) ;;
          lift_fs (io_update (fun fs => write_file fs target EmptyString)) ;;
          lift_fs (io_update (fun fs => write_file fs cacheTarget EmptyString)) ;;
          lift_fs (io_update (fun fs => write_file fs target (h_content header))) ;;
          lift_fs (io_update (fun fs => write_file fs cacheTarget (h_content header)))
      | TypeOther => io_ret tt
      end.

Fixpoint extract_loop (destPath cachePath : string) (headers : list tar_header)
    : io extract_error unit :=
  match headers with
  | [] => io_ret tt
  | header :: rest =>
      extract_entry destPath cachePath header ;;
      extract_loop destPath cachePath rest
  end.

Definition extractAndCache (c : Cache) (tarReader : tar_stream)
    (destPath packageName version : string) : io extract_error unit :=
  let cachePath := getPackagePath c packageName version in
  lift_fs (io_update (fun fs => RemoveAll fs destPath)) ;;
  lift_fs (io_update (fun fs => RemoveAll fs cachePath)) ;;
  extract_loop destPath cachePath (entries tarReader) ;;
  if ends_with_EOF tarReader then io_ret tt else io_fail TarError.

(** Whether the cleaned path [target] is the directory [root] or lies in it,
    component by component. *)
Definition within (root target : string) : Prop :=
  Split (filepath.Clean root) "/" `prefix_of` Split (filepath.Clean target) "/".

(** The target of an archive entry: the entry name without its leading
    [package/], joined to the destination root. *)
Definition entry_target (destPath : string) (header : tar_header) : string :=
  filepath.Join [destPath; TrimPrefix (h_Name header) "package/"].

(** A cache root, and an archive with a manifest, an entry that climbs out
    of the destination, a directory, a file in it and an entry outside
    [package/]. *)
Definition user_cache : Cache := {| cacheDir := "/home/u/.cache/gpm" |}.

(** A JSON string literal without escapes, and the text of a manifest with
    a name and a version. *)
Definition quoted (s : string) : string :=
  String (ascii_of_nat 34) s +:+ String (ascii_of_nat 34) EmptyString.

Definition manifest_text (name version : string) : string :=
  "{" +:+ quoted "name" +:+ ":" +:+ quoted name +:+ "," +:+
  quoted "version" +:+ ":" +:+ quoted version +:+ "}".

Definition manifest_entry : tar_header :=
  {| h_Name := "package/package.json"; h_Typeflag := TypeReg;
     h_content := manifest_text "left-pad" "1.3.0" |}.

Definition climbing_entry : tar_header :=
  {| h_Name := "package/../../evil"; h_Typeflag := TypeReg;
     h_content := "overwritten" |}.

Definition later_entries : list tar_header :=
  [ {| h_Name := "package/lib/"; h_Typeflag := TypeDir; h_content := EmptyString |};
    {| h_Name := "package/lib/index.js"; h_Typeflag := TypeReg;
       h_content := "module.exports = leftPad;" |};
    {| h_Name := "/etc/passwd"; h_Typeflag := TypeReg; h_content := "root::0:0" |} ].

Definition climbing_archive : tar_stream :=
  {| entries := manifest_entry :: climbing_entry :: later_entries;
     ends_with_EOF := true |}.

(** The paths of a file system that are neither the directory [root] nor
    below it. *)
Definition paths_outside (root : string) (fs : gmap string node) : list string :=
  filter (fun k => negb (String.eqb k root || below root k) = true)
    (map_to_list fs).*1.

(** ** Copying a directory (cache.go) *)

(** [copyFile]: the source was opened; the directory of the destination is
    made and the destination is created with the content. *)
Definition copyFile (content dst : string) : io fs_error unit :=
  io_update (fun fs => MkdirAll fs (filepath.Dir dst)) ;;
  io_update (fun fs => write_file fs dst content).

(** The callback of [copyDirectory] on one visited path. *)
Definition copy_entry (src dst : string) (e : string * node) : io fs_error unit :=
  let '(path, info) := e in
  let relPath := walk_rel src path in
  let destPath := filepath.Join [dst; relPath] in
  match info with
  | DirNode => io_update (fun fs => MkdirAll fs destPath)
  | FileNode content => copyFile content destPath
  end.

Fixpoint copy_entries (src dst : string) (visited : list (string * node))
    : io fs_error unit :=
  match visited with
  | [] => io_ret tt
  | e :: rest => copy_entry src dst e ;; copy_entries src dst rest
  end.

Definition copyDirectory (src dst : string) : io fs_error unit :=
  fun fs =>
    match walk fs src with
    | None => (Err (ENOENT src), fs)
    | Some visited => copy_entries src dst visited fs
    end.

(** ** The world of an install *)

(** What the program cannot decide: the registry and the tarball host, the
    order in which a map is visited, and [json.Unmarshal] on a manifest, for
    the struct with the version and for the struct with the dependencies
    ([None] is the decoding error). *)
Inductive download :=
  | DownloadFailed
  | DownloadStatus (status : Z) (gzip_body : option tar_stream).

Record env := {
  http_registry : string -> http_outcome;
  http_tarball : string -> download;
  range_keys : gset string -> list string;
  json_version : string -> option string;
  json_dependencies : string -> option (gmap string string)
}.

(** The map is visited key by key, each key once. *)
Definition fair_range (ev : env) : Prop :=
  forall keys : gset string,
    NoDup (range_keys ev keys) /\ forall k, k ∈ range_keys ev keys <-> k ∈ keys.

(** The file system, the requests sent so far, oldest first, and the lock
    structure. *)
Record world := {
  w_fs : gmap string node;
  w_requests : list string;
  w_lock : LockFile
}.

Definition in_fs {E A} (m : io E A) : prog world E A :=
  fun w =>
    let '(r, fs') := m (w_fs w) in
    (r, {| w_fs := fs'; w_requests := w_requests w; w_lock := w_lock w |}).

Definition send_request {E} (url : string) : prog world E unit :=
  fun w =>
    (Ok tt, {| w_fs := w_fs w; w_requests := w_requests w ++ [url];
               w_lock := w_lock w |}).

Definition update_lock {E} (f : LockFile -> LockFile) : prog world E unit :=
  fun w =>
    (Ok tt, {| w_fs := w_fs w; w_requests := w_requests w;
               w_lock := f (w_lock w) |}).

Definition read_world {E A} (f : world -> A) : prog world E A :=
  fun w => (Ok (f w), w).

(** ** The package manager (package_manager.go) *)

Record PackageManager := {
  nodeModulesPath : string;
  registryURL : string;
  cache : Cache
}.

Inductive install_error :=
  | NodeModulesFailed (e : fs_error)
  | PackageInfoFailed (e : resolve_error)
  | DownloadTransport
  | DownloadBadStatus (status : Z)
  | GzipFailed
  | ExtractFailed (e : extract_error).

(** [isPackageInstalled], the method and the function of the same body. *)
Definition isPackageInstalled (ev : env) (fs : gmap string node)
    (packagePath version : string) : bool :=
  let packageJSONPath := filepath.Join [packagePath; "package.json"] in
  match ReadFile fs packageJSONPath with
  | Err _ => false
  | Ok data =>
      match json_version ev data with
      | None => false
      | Some pkgVersion => String.eqb pkgVersion version
      end
  end.

(** The registry lookup of a package: the request, and [getPackageInfo] on
    its outcome. *)
Definition fetchPackageInfo (ev : env) (pm : PackageManager)
    (packageName version : string) : prog world resolve_error PackageInfo :=
  let url := registryURL pm +:+ "/" +:+ packageName in
  send_request url ;;
  fun w =>
    let answer := http_registry ev url in
    let order :=
      match answer with
      | Response _ (Some registryResp) =>
          range_keys ev (dom (Versions registryResp))
      | _ => []
      end in
    (getPackageInfo answer order packageName version, w).

Definition downloadAndExtract (ev : env) (pm : PackageManager)
    (pkgInfo : PackageInfo) (destPath : string) : prog world install_error unit :=
  let url := Tarball (Dist pkgInfo) in
  send_request url ;;
  match http_tarball ev url with
  | DownloadFailed => io_fail DownloadTransport
  | DownloadStatus status gzip_body =>
      if negb (status =? 200) then io_fail (DownloadBadStatus status)
      else match gzip_body with
      | None => io_fail GzipFailed
      | Some tarReader =>
          in_fs (io_map_err ExtractFailed
                   (extractAndCache (cache pm) tarReader destPath
                      (pi_Name pkgInfo) (pi_Version pkgInfo)))
      end
  end.

Definition installFromCache (pm : PackageManager)
    (packageName version destPath : string) : io fs_error unit :=
  let cachePath := getPackagePath (cache pm) packageName version in
  copyDirectory cachePath destPath.

(** What [Install] and [installSimple] do once the package is resolved: the
    installed version and whether it came without download. *)
Definition install_resolved (ev : env) (pm : PackageManager)
    (packageName : string) (pkgInfo : PackageInfo)
    : prog world install_error (string * bool) :=
  let packagePath := filepath.Join [nodeModulesPath pm; packageName] in
  do installed <- read_world (fun w =>
      isPackageInstalled ev (w_fs w) packagePath (pi_Version pkgInfo));
  if installed then io_ret (pi_Version pkgInfo, true)
  else
    do cached <- read_world (fun w =>
        cache_hasPackage (cache pm) (w_fs w) packageName (pi_Version pkgInfo));
    do copied <-
      (if cached
       then io_try (in_fs (installFromCache pm packageName
                             (pi_Version pkgInfo) packagePath))
       else io_ret (Err (ENOENT EmptyString)));
    match copied with
    | Ok _ => io_ret (pi_Version pkgInfo, true)
    | Err _ =>
        downloadAndExtract ev pm pkgInfo packagePath ;;
        io_ret (pi_Version pkgInfo, false)
    end.

(** [Install]: the installed version and the cache flag, or the error. *)
Definition Install (ev : env) (pm : PackageManager) (packageName version : string)
    : prog world install_error (string * bool) :=
  in_fs (io_map_err NodeModulesFailed
           (io_update (fun fs => MkdirAll fs (nodeModulesPath pm)))) ;;
  do pkgInfo <- io_map_err PackageInfoFailed
                  (fetchPackageInfo ev pm packageName version);
  install_resolved ev pm packageName pkgInfo.

Definition installSimple (ev : env) (pm : PackageManager)
    (packageName version : string) : prog world install_error string :=
  do pkgInfo <- io_map_err PackageInfoFailed
                  (fetchPackageInfo ev pm packageName version);
  do installed <- install_resolved ev pm packageName pkgInfo;
  io_ret installed.1.

(** [getPackageDependencies] *)
Definition getPackageDependencies (ev : env) (fs : gmap string node)
    (packageName : string) : gmap string string :=
  let packagePath := filepath.Join ["node_modules"; packageName; "package.json"] in
  match ReadFile fs packagePath with
  | Err _ => ∅
  | Ok data => default ∅ (json_dependencies ev data)
  end.

(** [lockFile.addPackage] on the lock structure of the world. *)
Definition lock_addPackage {E} (ev : env) (name version specifier : string)
    (isDev : bool) : prog world E unit :=
  fun w =>
    let deps := getPackageDependencies ev (w_fs w) name in
    update_lock (addPackage name version specifier isDev deps) w.

(** One round of the loop of [InstallDependencies]. *)
Definition install_dependency {E} (ev : env) (pm : PackageManager)
    (depName : string) : prog world E unit :=
  let depPath := filepath.Join [nodeModulesPath pm; depName] in
  do present <- read_world (fun w => bool_decide (is_Some (fs_stat (w_fs w) depPath)));
  if present then io_ret tt
  else
    do installed <- io_try (installSimple ev pm depName "latest");
    match installed with
    | Err _ => io_ret tt
    | Ok installedVersion =>
        lock_addPackage ev depName installedVersion depName false
    end.

Fixpoint install_dependencies {E} (ev : env) (pm : PackageManager)
    (depNames : list string) : prog world E unit :=
  match depNames with
  | [] => io_ret tt
  | depName :: rest =>
      install_dependency ev pm depName ;; install_dependencies ev pm rest
  end.

(** [InstallDependencies]; it returns no error. *)
Definition InstallDependencies {E} (ev : env) (pm : PackageManager)
    (packageName : string) : prog world E unit :=
  let packageJSONPath :=
    filepath.Join [filepath.Join [nodeModulesPath pm; packageName]; "package.json"] in
  do data <- read_world (fun w => ReadFile (w_fs w) packageJSONPath);
  match data with
  | Err _ => io_ret tt
  | Ok data =>
      match json_dependencies ev data with
      | None => io_ret tt
      | Some deps => install_dependencies ev pm (range_keys ev (dom deps))
      end
  end.

(** ** The worker pool (parallel.go) *)

Record PackageJob := {
  j_Name : string;
  j_Version : string;
  j_IsDev : bool;
  OriginalSpec : string
}.

Record PackageResult := {
  Job : PackageJob;
  InstalledVersion : string;
  Error : option install_error;
  FromCache : bool
}.

(** The body of the loop of [worker] for one job.  The timer is display
    only and left out. *)
Definition run_job {E} (ev : env) (pm : PackageManager) (job : PackageJob)
    : prog world E PackageResult :=
  let version := if negb (String.eqb (j_Version job) "") then j_Version job
                 else "latest" in
  do existingVersion <- read_world (fun w =>
      getPackageVersion (range_keys ev (dom (Packages (w_lock w))))
        (j_Name job) (w_lock w));
  do installed <- read_world (fun w =>
      isPackageInstalled ev (w_fs w) ("node_modules/" +:+ j_Name job)
        existingVersion);
  if negb (String.eqb existingVersion "") && installed
  then io_ret {| Job := job; InstalledVersion := existingVersion;
                 Error := None; FromCache := true |}
  else
    do outcome <- io_try (Install ev pm (j_Name job) version);
    match outcome with
    | Err err =>
        io_ret {| Job := job; InstalledVersion := EmptyString;
                  Error := Some err; FromCache := false |}
    | Ok (installedVersion, wasCached) =>
        (if negb wasCached then InstallDependencies ev pm (j_Name job)
         else io_ret tt) ;;
        io_ret {| Job := job; InstalledVersion := installedVersion;
                  Error := None; FromCache := wasCached |}
    end.

(** The counters of [showProgress]. *)
Record tally := {
  completed : nat;
  failed : nat;
  cached : nat;
  downloaded : nat;
  errors : list (string * install_error)
}.

Definition no_tally : tally :=
  {| completed := 0; failed := 0; cached := 0; downloaded := 0; errors := [] |}.

(** What [showProgress] does with a result it received.  The edit of the
    project manifest by [updatePackageJSON] is the business of
    [edit_manifest]; it is an external collaborator and is given the file
    system. *)
Definition record_result {E} (ev : env)
    (edit_manifest : string -> string -> bool -> gmap string node -> gmap string node)
    (t : tally) (r : PackageResult) : prog world E tally :=
  match Error r with
  | Some err =>
      io_ret {| completed := completed t; failed := S (failed t);
                cached := cached t; downloaded := downloaded t;
                errors := errors t ++ [(j_Name (Job r), err)] |}
  | None =>
      lock_addPackage ev (j_Name (Job r)) (InstalledVersion r)
        (OriginalSpec (Job r)) (j_IsDev (Job r)) ;;
      (if negb (String.eqb (j_Name (Job r)) "")
       then in_fs (fun fs => (Ok tt, edit_manifest (j_Name (Job r))
                                       (InstalledVersion r) (j_IsDev (Job r)) fs))
       else io_ret tt) ;;
      io_ret {| completed := S (completed t); failed := failed t;
                cached := if FromCache r then S (cached t) else cached t;
                downloaded := if FromCache r then downloaded t
                              else S (downloaded t);
                errors := errors t |}
  end.

(** A worker goroutine between two channel operations. *)
Inductive worker_state :=
  | Idle
  | Holding (job : PackageJob)
  | Sending (r : PackageResult)
  | Exited.

(** The goroutines and channels of [InstallPackages]: the jobs that the
    caller still has to send, the two buffered channels (oldest element
    first) with their closed flags, the workers, the counters of the
    aggregator, whether [progressDone] is closed, and the world.
    [attempted] and [handled] record which jobs a worker ran and which
    results the aggregator processed. *)
Record pool := {
  unsent : list PackageJob;
  jobChan : list PackageJob;
  jobs_closed : bool;
  workers : list worker_state;
  resultChan : list PackageResult;
  results_closed : bool;
  progress : tally;
  progressDone : bool;
  attempted : list PackageJob;
  handled : list PackageResult;
  the_world : world
}.

Definition start (jobs : list PackageJob) (maxWorkers : nat) (w : world) : pool :=
  {| unsent := jobs; jobChan := []; jobs_closed := false;
     workers := replicate maxWorkers Idle;
     resultChan := []; results_closed := false;
     progress := no_tally; progressDone := false;
     attempted := []; handled := []; the_world := w |}.

Definition set_worker (i : nat) (ws : worker_state) (p : pool) : pool :=
  {| unsent := unsent p; jobChan := jobChan p; jobs_closed := jobs_closed p;
     workers := <[i := ws]> (workers p);
     resultChan := resultChan p; results_closed := results_closed p;
     progress := progress p; progressDone := progressDone p;
     attempted := attempted p; handled := handled p; the_world := the_world p |}.

Section Scheduler.

Variable ev : env.
Variable pm : PackageManager.
Variable edit_manifest : string -> string -> bool -> gmap string node -> gmap string node.
Variable setupAllBinaries : gmap string node -> gmap string node.

(** One step of one goroutine.  A job runs in one step; the ticker of the
    aggregator changes nothing and has no step. *)
Inductive step : pool -> pool -> Prop :=
  | step_send job rest p :
      unsent p = job :: rest ->
      step p {| unsent := rest; jobChan := jobChan p ++ [job];
                jobs_closed := jobs_closed p; workers := workers p;
                resultChan := resultChan p; results_closed := results_closed p;
                progress := progress p; progressDone := progressDone p;
                attempted := attempted p; handled := handled p;
                the_world := the_world p |}
  | step_close_jobs p :
      unsent p = [] -> jobs_closed p = false ->
      step p {| unsent := []; jobChan := jobChan p;
                jobs_closed := true; workers := workers p;
                resultChan := resultChan p; results_closed := results_closed p;
                progress := progress p; progressDone := progressDone p;
                attempted := attempted p; handled := handled p;
                the_world := the_world p |}
  | step_take i job rest p :
      workers p !! i = Some Idle -> jobChan p = job :: rest ->
      step p (set_worker i (Holding job)
                {| unsent := unsent p; jobChan := rest;
                   jobs_closed := jobs_closed p; workers := workers p;
                   resultChan := resultChan p; results_closed := results_closed p;
                   progress := progress p; progressDone := progressDone p;
                   attempted := attempted p; handled := handled p;
                   the_world := the_world p |})
  | step_run i job r w' p :
      workers p !! i = Some (Holding job) ->
      run_job (E := Empty_set) ev pm job (the_world p) = (Ok r, w') ->
      step p (set_worker i (Sending r)
                {| unsent := unsent p; jobChan := jobChan p;
                   jobs_closed := jobs_closed p; workers := workers p;
                   resultChan := resultChan p; results_closed := results_closed p;
                   progress := progress p; progressDone := progressDone p;
                   attempted := attempted p ++ [job]; handled := handled p;
                   the_world := w' |})
  | step_result i r p :
      workers p !! i = Some (Sending r) ->
      step p (set_worker i Idle
                {| unsent := unsent p; jobChan := jobChan p;
                   jobs_closed := jobs_closed p; workers := workers p;
                   resultChan := resultChan p ++ [r];
                   results_closed := results_closed p;
                   progress := progress p; progressDone := progressDone p;
                   attempted := attempted p; handled := handled p;
                   the_world := the_world p |})
  | step_exit i p :
      workers p !! i = Some Idle -> jobChan p = [] -> jobs_closed p = true ->
      step p (set_worker i Exited p)
  | step_close_results p :
      jobs_closed p = true -> results_closed p = false ->
      Forall (fun ws => ws = Exited) (workers p) ->
      step p {| unsent := unsent p; jobChan := jobChan p;
                jobs_closed := jobs_closed p; workers := workers p;
                resultChan := resultChan p; results_closed := true;
                progress := progress p; progressDone := progressDone p;
                attempted := attempted p; handled := handled p;
                the_world := the_world p |}
  | step_receive r rest t' w' p :
      progressDone p = false -> resultChan p = r :: rest ->
      record_result (E := Empty_set) ev edit_manifest (progress p) r (the_world p)
        = (Ok t', w') ->
      step p {| unsent := unsent p; jobChan := jobChan p;
                jobs_closed := jobs_closed p; workers := workers p;
                resultChan := rest; results_closed := results_closed p;
                progress := t'; progressDone := false;
                attempted := attempted p; handled := handled p ++ [r];
                the_world := w' |}
  | step_done p :
      progressDone p = false -> resultChan p = [] -> results_closed p = true ->
      step p {| unsent := unsent p; jobChan := jobChan p;
                jobs_closed := jobs_closed p; workers := workers p;
                resultChan := []; results_closed := true;
                progress := progress p; progressDone := true;
                attempted := attempted p; handled := handled p;
                the_world :=
                  {| w_fs := setupAllBinaries (w_fs (the_world p));
                     w_requests := w_requests (the_world p);
                     w_lock := w_lock (the_world p) |} |}.

(** The states that a run of [InstallPackages] on [jobs] goes through.  The
    call returns when [progressDone] is closed; for no jobs it returns at
    once and nothing of the above is started. *)
Inductive reaches (jobs : list PackageJob) (maxWorkers : nat) (w : world)
    : pool -> Prop :=
  | reaches_start : reaches jobs maxWorkers w (start jobs maxWorkers w)
  | reaches_step p p' :
      reaches jobs maxWorkers w p -> step p p' -> reaches jobs maxWorkers w p'.

End Scheduler.

(** ** A small registry for the examples *)

(** The archive of left-pad 1.3.0, well formed, and the archive of a package
    whose entries are under its own name instead of [package/]. *)
Definition left_pad_archive : tar_stream :=
  {| entries :=
       [ manifest_entry;
         {| h_Name := "package/lib/"; h_Typeflag := TypeDir;
            h_content := EmptyString |};
         {| h_Name := "package/lib/index.js"; h_Typeflag := TypeReg;
            h_content := "module.exports = leftPad;" |} ];
     ends_with_EOF := true |}.

Definition rootless_archive : tar_stream :=
  {| entries :=
       [ {| h_Name := "rootless-1.0.0/package.json"; h_Typeflag := TypeReg;
            h_content := manifest_text "rootless" "1.0.0" |};
         {| h_Name := "rootless-1.0.0/index.js"; h_Typeflag := TypeReg;
            h_content := "module.exports = 1;" |} ];
     ends_with_EOF := true |}.

Definition sample_answer (packageName v : string) : http_outcome :=
  Response 200 (Some {| Versions := version_table packageName [v];
                        DistTags := {["latest" := v]} |}).

Definition sample_registry (url : string) : http_outcome :=
  if String.eqb url "https://registry.npmjs.org/left-pad"
  then sample_answer "left-pad" "1.3.0"
  else if String.eqb url "https://registry.npmjs.org/rootless"
  then sample_answer "rootless" "1.0.0"
  else Response 404 None.

Definition sample_tarballs (url : string) : download :=
  if String.eqb url (Tarball (Dist (info_for "left-pad" "1.3.0")))
  then DownloadStatus 200 (Some left_pad_archive)
  else if String.eqb url (Tarball (Dist (info_for "rootless" "1.0.0")))
  then DownloadStatus 200 (Some rootless_archive)
  else DownloadStatus 404 None.

(** [json.Unmarshal] on the two manifests of the examples; no other text is
    needed there, and none is decoded. *)
Definition sample_json_version (data : string) : option string :=
  if String.eqb data (manifest_text "left-pad" "1.3.0") then Some "1.3.0"
  else if String.eqb data (manifest_text "rootless" "1.0.0") then Some "1.0.0"
  else None.

Definition sample_json_dependencies (data : string) : option (gmap string string) :=
  if String.eqb data (manifest_text "left-pad" "1.3.0") then Some ∅
  else if String.eqb data (manifest_text "rootless" "1.0.0") then Some ∅
  else None.

Definition sample_env : env :=
  {| http_registry := sample_registry;
     http_tarball := sample_tarballs;
     range_keys := elements;
     json_version := sample_json_version;
     json_dependencies := sample_json_dependencies |}.

(** [NewPackageManager] with the cache of the examples. *)
Definition npm_pm : PackageManager :=
  {| nodeModulesPath := "./node_modules";
     registryURL := "https://registry.npmjs.org";
     cache := user_cache |}.

Definition empty_world : world :=
  {| w_fs := ∅; w_requests := []; w_lock := fresh_lock 0 |}.

Definition keep_manifest (name version : string) (isDev : bool)
    (fs : gmap string node) : gmap string node := fs.

Definition left_pad_job : PackageJob :=
  {| j_Name := "left-pad"; j_Version := "1.3.0"; j_IsDev := false;
     OriginalSpec := "left-pad@1.3.0" |}.

Definition rootless_job : PackageJob :=
  {| j_Name := "rootless"; j_Version := "1.0.0"; j_IsDev := false;
     OriginalSpec := "rootless@1.0.0" |}.

(** ** Installing twice *)

(** A job through a worker and the aggregator. *)
Definition install_job {E} (ev : env) (pm : PackageManager)
    (edit_manifest : string -> string -> bool -> gmap string node -> gmap string node)
    (job : PackageJob) : prog world E PackageResult :=
  do r <- run_job ev pm job;
  record_result ev edit_manifest no_tally r ;;
  io_ret r.

(** C6 as it is stated: after a successful install of a job, the same job
    again is a hit, sends no request and leaves the file system as it is. *)
Definition second_install_as_stated (ev : env) (pm : PackageManager)
    (edit_manifest : string -> string -> bool -> gmap string node -> gmap string node)
    (job : PackageJob) (w : world) : Prop :=
  forall r1 w1,
    install_job (E := Empty_set) ev pm edit_manifest job w = (Ok r1, w1) ->
    Error r1 = None ->
    exists r2 w2,
      run_job (E := Empty_set) ev pm job w1 = (Ok r2, w2) /\
      Error r2 = None /\ FromCache r2 = true /\
      w_requests w2 = w_requests w1 /\ w_fs w2 = w_fs w1.

(** Every entry of the name in the lock structure has the version [v]. *)
Definition only_version (name v : string) (lf : LockFile) : Prop :=
  map_Forall (fun _ pkg => lp_Name pkg = name -> lp_Version pkg = v) (Packages lf).

(** ** What a run of the pool keeps true *)

(** The jobs that workers hold and the results that workers are about to
    send. *)
Definition holding (ws : list worker_state) : list PackageJob :=
  omap (fun s => match s with Holding job => Some job | _ => None end) ws.

Definition sending (ws : list worker_state) : list PackageResult :=
  omap (fun s => match s with Sending r => Some r | _ => None end) ws.

(** The lock structure has an entry under the key of the result. *)
Definition recorded (lf : LockFile) (r : PackageResult) : Prop :=
  is_Some (Packages lf !! packageKey (j_Name (Job r)) (InstalledVersion r)).

Record pool_inv (jobs : list PackageJob) (maxWorkers : nat) (p : pool) : Prop := {
  inv_jobs :
    jobs ≡ₚ unsent p ++ jobChan p ++ holding (workers p) ++ attempted p;
  inv_results :
    attempted p ≡ₚ
      (Job <$> sending (workers p)) ++ (Job <$> resultChan p) ++
      (Job <$> handled p);
  inv_closed : jobs_closed p = true -> unsent p = [];
  inv_exited :
    Exited ∈ workers p -> jobs_closed p = true /\ jobChan p = [];
  inv_results_closed :
    results_closed p = true ->
    Forall (fun ws => ws = Exited) (workers p) /\ jobs_closed p = true;
  inv_done :
    progressDone p = true -> results_closed p = true /\ resultChan p = [];
  inv_workers : length (workers p) = maxWorkers;
  inv_lock :
    forall r, r ∈ handled p -> Error r = None ->
              recorded (w_lock (the_world p)) r
}.

(** The number of steps that a worker in a state has before it. *)
Definition worker_weight (s : worker_state) : nat :=
  match s with
  | Idle => 1
  | Holding _ => 4
  | Sending _ => 3
  | Exited => 0
  end.

(** The number of steps that a run has before it. *)
Definition steps_left (p : pool) : nat :=
  5 * length (unsent p) + 4 * length (jobChan p) +
  sum_list_with worker_weight (workers p) + length (resultChan p) +
  (if jobs_closed p then 0 else 1) + (if results_closed p then 0 else 1) +
  (if progressDone p then 0 else 1).

(** A step keeps the entries of the lock structure. *)
Definition lock_grows {E A} (m : prog world E A) : Prop :=
  forall w r w', m w = (r, w') ->
    dom (Packages (w_lock w)) ⊆ dom (Packages (w_lock w')).

(** ** One schedule, to run the pool *)

(** The first worker that has not returned, with its place. *)
Fixpoint first_alive (i : nat) (ws : list worker_state)
    : option (nat * worker_state) :=
  match ws with
  | [] => None
  | Exited :: rest => first_alive (S i) rest
  | s :: _ => Some (i, s)
  end.

Section Schedule.

Variable ev : env.
Variable pm : PackageManager.
Variable edit_manifest : string -> string -> bool -> gmap string node -> gmap string node.
Variable setupAllBinaries : gmap string node -> gmap string node.

(** The step that this schedule takes: the caller first, then the first
    worker that has not returned, then the aggregator.  [None] when the call
    has returned. *)
Definition next_step (p : pool) : option pool :=
  match unsent p with
  | job :: rest =>
      Some {| unsent := rest; jobChan := jobChan p ++ [job];
              jobs_closed := jobs_closed p; workers := workers p;
              resultChan := resultChan p; results_closed := results_closed p;
              progress := progress p; progressDone := progressDone p;
              attempted := attempted p; handled := handled p;
              the_world := the_world p |}
  | [] =>
      if negb (jobs_closed p) then
        Some {| unsent := []; jobChan := jobChan p;
                jobs_closed := true; workers := workers p;
                resultChan := resultChan p; results_closed := results_closed p;
                progress := progress p; progressDone := progressDone p;
                attempted := attempted p; handled := handled p;
                the_world := the_world p |}
      else
        match first_alive 0 (workers p) with
        | Some (i, Idle) =>
            match jobChan p with
            | job :: rest =>
                Some (set_worker i (Holding job)
                        {| unsent := unsent p; jobChan := rest;
                           jobs_closed := jobs_closed p; workers := workers p;
                           resultChan := resultChan p;
                           results_closed := results_closed p;
                           progress := progress p; progressDone := progressDone p;
                           attempted := attempted p; handled := handled p;
                           the_world := the_world p |})
            | [] => Some (set_worker i Exited p)
            end
        | Some (i, Holding job) =>
            match run_job (E := Empty_set) ev pm job (the_world p) with
            | (Ok r, w') =>
                Some (set_worker i (Sending r)
                        {| unsent := unsent p; jobChan := jobChan p;
                           jobs_closed := jobs_closed p; workers := workers p;
                           resultChan := resultChan p;
                           results_closed := results_closed p;
                           progress := progress p; progressDone := progressDone p;
                           attempted := attempted p ++ [job]; handled := handled p;
                           the_world := w' |})
            | (Err e, _) => match e with end
            end
        | Some (i, Sending r) =>
            Some (set_worker i Idle
                    {| unsent := unsent p; jobChan := jobChan p;
                       jobs_closed := jobs_closed p; workers := workers p;
                       resultChan := resultChan p ++ [r];
                       results_closed := results_closed p;
                       progress := progress p; progressDone := progressDone p;
                       attempted := attempted p; handled := handled p;
                       the_world := the_world p |})
        | Some (_, Exited) => None
        | None =>
            if negb (results_closed p) then
              Some {| unsent := unsent p; jobChan := jobChan p;
                      jobs_closed := jobs_closed p; workers := workers p;
                      resultChan := resultChan p; results_closed := true;
                      progress := progress p; progressDone := progressDone p;
                      attempted := attempted p; handled := handled p;
                      the_world := the_world p |}
            else if progressDone p then None
            else
              match resultChan p with
              | r :: rest =>
                  match record_result (E := Empty_set) ev edit_manifest
                          (progress p) r (the_world p) with
                  | (Ok t', w') =>
                      Some {| unsent := unsent p; jobChan := jobChan p;
                              jobs_closed := jobs_closed p; workers := workers p;
                              resultChan := rest;
                              results_closed := results_closed p;
                              progress := t'; progressDone := false;
                              attempted := attempted p;
                              handled := handled p ++ [r];
                              the_world := w' |}
                  | (Err e, _) => match e with end
                  end
              | [] =>
                  Some {| unsent := unsent p; jobChan := jobChan p;
                          jobs_closed := jobs_closed p; workers := workers p;
                          resultChan := []; results_closed := true;
                          progress := progress p; progressDone := true;
                          attempted := attempted p; handled := handled p;
                          the_world :=
                            {| w_fs := setupAllBinaries (w_fs (the_world p));
                               w_requests := w_requests (the_world p);
                               w_lock := w_lock (the_world p) |} |}
              end
        end
  end.

(** The pool after at most [n] steps of the schedule. *)
Fixpoint run_pool (n : nat) (p : pool) : pool :=
  match n with
  | O => p
  | S n' =>
      match next_step p with
      | Some p' => run_pool n' p'
      | None => p
      end
  end.

End Schedule.

(** The number of entries of the lock structure whose name is one of
    [names]. *)
Definition entries_named (names : list string) (lf : LockFile) : nat :=
  length (filter (fun e => lp_Name e.2 ∈ names) (map_to_list (Packages lf))).

(** C7 as it is stated, for the state in which the call returns: every job
    was run once, every job has its result, and the lock structure has as
    many entries for the names of the jobs as there are jobs. *)
Definition pool_as_stated (jobs : list PackageJob) (p : pool) : Prop :=
  attempted p ≡ₚ jobs /\ Job <$> handled p ≡ₚ jobs /\
  entries_named (j_Name <$> jobs) (w_lock (the_world p)) = length jobs.

(** A job for a package that the registry does not have. *)
Definition missing_job : PackageJob :=
  {| j_Name := "no-such-package"; j_Version := EmptyString; j_IsDev := false;
     OriginalSpec := "no-such-package" |}.

(* ================================================================== *)
(** * Properties *)

Example split_dots : Split "1.20.3" "." = ["1"; "20"; "3"].
Proof. reflexivity. Qed.

Example split_bars : Split "^2.0.0 || ^1.0.0" "||" = ["^2.0.0 "; " ^1.0.0"].
Proof. reflexivity. Qed.

Example trim_space_both : TrimSpace "  ^1.0.0 " = "^1.0.0".
Proof. reflexivity. Qed.

Example cmp_numeric : pm_compareVersions "1.10.0" "1.9.3" = 1.
Proof. vm_compute. reflexivity. Qed.

Example cmp_padding : compareVersions "1.10.0-rc" "1.10" = 0.
Proof. vm_compute. reflexivity. Qed.

(** ** Characters *)

Section Characters.

Local Ltac by_cases a := destruct a as [[] [] [] [] [] [] [] []]; try done.

Lemma digit_not_sign a : is_digit a = true -> is_sign a = false.
Proof. by by_cases a. Qed.

Lemma digit_low a : is_digit a = true -> (nat_of_ascii a < 128)%nat.
Proof. by_cases a; intros _; vm_compute; lia. Qed.

Lemma digit_not_space a : is_digit a = true -> ascii_space a = false.
Proof. by by_cases a. Qed.

Lemma digit_not_letter a : is_digit a = true -> is_letter a = false.
Proof. by by_cases a. Qed.

Lemma letter_not_digit a : is_letter a = true -> is_digit a = false.
Proof. by by_cases a. Qed.

Lemma letter_not_sign a : is_letter a = true -> is_sign a = false.
Proof. by by_cases a. Qed.

Lemma letter_low a : is_letter a = true -> (nat_of_ascii a < 128)%nat.
Proof. by_cases a; intros _; vm_compute; lia. Qed.

Lemma letter_not_space a : is_letter a = true -> ascii_space a = false.
Proof. by by_cases a. Qed.

Lemma sign_cases a : is_sign a = true -> a = "+"%char \/ a = "-"%char.
Proof. by_cases a; intros _; auto. Qed.

Lemma not_sign_bytes a :
  is_sign a = false -> byte_is a 45 = false /\ byte_is a 43 = false.
Proof. by by_cases a. Qed.

Lemma space_is_not_lf_or_low a :
  ascii_space a = false -> byte_is a 10 = false.
Proof. by by_cases a. Qed.

(** A byte below 128 that is no ASCII white space starts no white-space
    rune. *)
Lemma space_width_low c r :
  (nat_of_ascii c < 128)%nat -> ascii_space c = false ->
  space_width (String c r) = O.
Proof.
  intros Hlow Hsp. unfold space_width. rewrite Hsp.
  assert (Hb : forall n, (128 <= n)%nat -> byte_is c n = false).
  { intros n Hn. unfold byte_is. apply Nat.eqb_neq. lia. }
  destruct r as [|c1 [|c2 r2]]; [done | |].
  - by rewrite (Hb 194%nat) by lia.
  - rewrite (Hb 194%nat), (Hb 225%nat), (Hb 226%nat), (Hb 227%nat) by lia.
    done.
Qed.

End Characters.

(** ** Splitting on a single byte *)

Lemma has_prefix_char a c s :
  HasPrefix (String c s) (String a EmptyString) = Ascii.eqb c a.
Proof.
  unfold HasPrefix. simpl. destruct (ascii_dec a c) as [->|Hne].
  - rewrite Ascii.eqb_refl. by destruct s.
  - symmetry. apply Ascii.eqb_neq. congruence.
Qed.

Lemma split_go_nonempty sep k s : split_go sep k s <> [].
Proof.
  revert k. induction s as [|c s IH]; intros k; cbn [split_go]; [done|].
  destruct k; [|apply IH]. by repeat case_match.
Qed.

Lemma split_char_cons a c s :
  Split (String c s) (String a EmptyString) =
  if Ascii.eqb c a then EmptyString :: Split s (String a EmptyString)
  else match Split s (String a EmptyString) with
       | piece :: rest => String c piece :: rest
       | [] => [String c EmptyString]
       end.
Proof.
  unfold Split. cbn [split_go]. rewrite has_prefix_char.
  by destruct (Ascii.eqb c a).
Qed.

Lemma hd_split_char a s :
  hd EmptyString (Split s (String a EmptyString)) = before a s.
Proof.
  induction s as [|c s IH]; [done|].
  rewrite split_char_cons. simpl. destruct (Ascii.eqb c a); [done|].
  pose proof (split_go_nonempty (String a EmptyString) 0 s) as Hne.
  unfold Split in *. destruct (split_go _ 0 s); [done|].
  simpl in *. by rewrite IH.
Qed.

Lemma app_cons c d x : String c d +:+ x = String c (d +:+ x).
Proof. reflexivity. Qed.

Lemma app_nil x : EmptyString +:+ x = x.
Proof. reflexivity. Qed.

Lemma before_app a d r :
  (forall c, c ∈ list_ascii_of_string d -> c <> a) ->
  before a (d +:+ r) = d +:+ before a r.
Proof.
  induction d as [|c d IH]; intros Hd; [done|].
  rewrite !app_cons. simpl. assert (c <> a) as Hc by (apply Hd; simpl; left).
  apply Ascii.eqb_neq in Hc. rewrite Hc. f_equal. apply IH.
  intros c' Hc'. apply Hd. simpl. by right.
Qed.

Lemma before_none a d :
  (forall c, c ∈ list_ascii_of_string d -> c <> a) -> before a d = d.
Proof.
  induction d as [|c d IH]; intros Hd; [done|].
  simpl. assert (c <> a) as Hc by (apply Hd; simpl; left).
  apply Ascii.eqb_neq in Hc. rewrite Hc. f_equal. apply IH.
  intros c' Hc'. apply Hd. simpl. by right.
Qed.

(** ** Digit runs *)

Lemma span_digits_spec s d r :
  span_digits s = (d, r) ->
  s = d +:+ r /\ all_digits d = true /\
  match r with String a _ => is_digit a = false | EmptyString => True end.
Proof.
  revert d r. induction s as [|c s IH]; intros d r; simpl.
  - intros [= <- <-]. done.
  - destruct (is_digit c) eqn:Hc.
    + destruct (span_digits s) as [d' r'] eqn:Hs. intros [= <- <-].
      destruct (IH _ _ eq_refl) as (-> & Hd & Hr).
      simpl. by rewrite Hc.
    + intros [= <- <-]. by rewrite Hc.
Qed.

Lemma span_digits_app d r :
  all_digits d = true ->
  match r with String a _ => is_digit a = false | EmptyString => True end ->
  span_digits (d +:+ r) = (d, r).
Proof.
  induction d as [|c d IH]; simpl; intros Hd Hr.
  - rewrite ?app_nil. destruct r as [|a r]; [done|]. simpl. by rewrite Hr.
  - apply andb_true_iff in Hd as [Hc Hd]. rewrite ?app_cons. simpl.
    by rewrite Hc, (IH Hd Hr).
Qed.

Lemma all_digits_no_byte d a :
  all_digits d = true -> is_digit a = false ->
  forall c, c ∈ list_ascii_of_string d -> c <> a.
Proof.
  induction d as [|c d IH]; simpl; intros Hd Ha c' Hc'.
  - by apply elem_of_nil in Hc'.
  - apply andb_true_iff in Hd as [Hc Hd].
    apply elem_of_cons in Hc' as [->|Hc']; [congruence|by apply IH].
Qed.

(** ** The two comparators on plain components *)

Lemma skip_space_low c r :
  (nat_of_ascii c < 128)%nat -> ascii_space c = false ->
  skip_space_go O (String c r) = Some (String c r).
Proof.
  intros Hlow Hsp. cbn [skip_space_go].
  by rewrite (space_is_not_lf_or_low _ Hsp), (space_width_low _ _ Hlow Hsp).
Qed.

Lemma scan_int_digits d0 d r :
  all_digits (String d0 d) = true ->
  match r with String a _ => is_digit a = false | EmptyString => True end ->
  scan_int (String d0 d +:+ r) = parse_signed false (String d0 d).
Proof.
  intros Hd Hr. pose proof Hd as Hd'. simpl in Hd'.
  apply andb_true_iff in Hd' as [H0 _].
  unfold scan_int. rewrite app_cons.
  rewrite (skip_space_low _ _ (digit_low _ H0) (digit_not_space _ H0)).
  rewrite (digit_not_sign _ H0). rewrite <- app_cons.
  by rewrite (span_digits_app _ _ Hd Hr).
Qed.

Lemma atoi_digits d0 d :
  is_digit d0 = true -> Atoi (String d0 d) = parse_signed false (String d0 d).
Proof.
  intros H0. unfold Atoi.
  destruct (not_sign_bytes _ (digit_not_sign _ H0)) as [-> ->]. done.
Qed.

Lemma cleaned_digits d r :
  all_digits d = true ->
  match r with String a _ => is_sign a = true | EmptyString => True end ->
  hd EmptyString (Split (hd EmptyString (Split (d +:+ r) "-")) "+") = d.
Proof.
  intros Hd Hr. rewrite !hd_split_char.
  rewrite (before_app "-"%char) by (by apply all_digits_no_byte).
  rewrite (before_app "+"%char) by (by apply all_digits_no_byte).
  destruct r as [|a r].
  - simpl. clear. induction d; [done|]. rewrite app_cons. by f_equal.
  - destruct (sign_cases _ Hr) as [-> | ->]; simpl.
    + clear. induction d; [done|]. rewrite app_cons. by f_equal.
    + clear. induction d; [done|]. rewrite app_cons. by f_equal.
Qed.

Lemma plain_part_agree part :
  plain_part part = true -> Sscanf_d part = parseVersionPart part.
Proof.
  unfold plain_part. destruct (span_digits part) as [d r] eqn:Hspan.
  destruct (span_digits_spec _ _ _ Hspan) as (-> & Hd & Hr).
  destruct d as [|d0 d]; intros Hplain.
  - rewrite app_nil. destruct r as [|a r]; [done|].
    unfold Sscanf_d, scan_int, parseVersionPart.
    rewrite (skip_space_low _ _ (letter_low _ Hplain) (letter_not_space _ Hplain)).
    rewrite (letter_not_sign _ Hplain). simpl span_digits.
    rewrite (letter_not_digit _ Hplain). simpl.
    rewrite !hd_split_char.
    destruct (not_sign_bytes _ (letter_not_sign _ Hplain)) as [Hm Hp].
    unfold byte_is in Hm, Hp.
    assert (Ascii.eqb a "-" = false) as E1.
    { apply Ascii.eqb_neq. intros ->. done. }
    assert (Ascii.eqb a "+" = false) as E2.
    { apply Ascii.eqb_neq. intros ->. done. }
    simpl. rewrite E1. simpl. rewrite E2. unfold Atoi, byte_is.
    rewrite Hm, Hp. unfold parse_signed. simpl.
    by rewrite (letter_not_digit _ Hplain).
  - assert (Hr' : match r with
                  | String a _ => is_sign a = true
                  | EmptyString => True
                  end) by (by destruct r).
    unfold Sscanf_d, parseVersionPart.
    rewrite (scan_int_digits _ _ _ Hd Hr), (cleaned_digits _ _ Hd Hr').
    simpl in Hd. apply andb_true_iff in Hd as [H0 _].
    by rewrite (atoi_digits _ _ H0).
Qed.

Lemma nth_part_agree parts i :
  forallb plain_part parts = true ->
  nth_part Sscanf_d parts i = nth_part parseVersionPart parts i.
Proof.
  intros Hall. unfold nth_part. destruct (parts !! i) as [part|] eqn:Hi; [|done].
  apply plain_part_agree. rewrite forallb_forall in Hall. apply Hall.
  apply list_elem_of_In. by eapply list_elem_of_lookup_2.
Qed.

Lemma compare_loops_agree parts1 parts2 n i :
  forallb plain_part parts1 = true -> forallb plain_part parts2 = true ->
  pm_compare_loop parts1 parts2 n i = compare_loop parts1 parts2 n i.
Proof.
  intros H1 H2. revert i. induction n as [|n IH]; intros i; [done|].
  cbn [pm_compare_loop compare_loop].
  rewrite (nth_part_agree _ i H1), (nth_part_agree _ i H2), IH.
  destruct (Z.gtb_spec (nth_part parseVersionPart parts1 i)
                       (nth_part parseVersionPart parts2 i));
  destruct (Z.ltb_spec (nth_part parseVersionPart parts1 i)
                       (nth_part parseVersionPart parts2 i)); try done; lia.
Qed.

(** C10, as the code has it: the method of package_manager.go and the
    function of upgrader.go return the same result for every pair of version
    strings whose dot-separated components are all plain, that is empty,
    starting with an ASCII letter, or a non-empty run of decimal digits that
    is followed by nothing or by [-] or [+]. *)
Theorem comparators_agree_on_plain_versions v1 v2 :
  plain_version v1 = true -> plain_version v2 = true ->
  pm_compareVersions v1 v2 = compareVersions v1 v2.
Proof.
  intros H1 H2. unfold pm_compareVersions, compareVersions.
  by apply compare_loops_agree.
Qed.

Lemma comparators_agree_on_plain_versions_witness :
  plain_version "1.10.0-rc.1" = true /\ plain_version "1.9.3+build.7" = true /\
  pm_compareVersions "1.10.0-rc.1" "1.9.3+build.7" =
  compareVersions "1.10.0-rc.1" "1.9.3+build.7".
Proof.
  split; [reflexivity|]. split; [reflexivity|].
  apply (comparators_agree_on_plain_versions "1.10.0-rc.1" "1.9.3+build.7");
    reflexivity.
Defined.

(** C10, as stated, fails: a component made of digits followed by a letter
    is read as its leading number by [Sscanf] and as zero by [Atoi]. *)
Lemma comparators_differ :
  pm_compareVersions "1.0.0-alpha.1beta" "1.0.0-alpha.0" = 1 /\
  compareVersions "1.0.0-alpha.1beta" "1.0.0-alpha.0" = 0 /\
  pm_compareVersions "1.0.0-alpha.1beta" "1.0.0-alpha.0" <>
  compareVersions "1.0.0-alpha.1beta" "1.0.0-alpha.0".
Proof. vm_compute. repeat split; congruence. Qed.

(** ** The comparator of the resolver is a total preorder *)

(** The loop only reads the two sequences of numbers, each padded with
    zeros. *)
Lemma pm_compare_loop_seq parts1 parts2 n i :
  pm_compare_loop parts1 parts2 n i =
  seq_compare (nth_part Sscanf_d parts1) (nth_part Sscanf_d parts2) n i.
Proof. revert i. induction n as [|n IH]; intros i; simpl; [done|]. by rewrite IH. Qed.

Lemma seq_compare_range f g n i :
  seq_compare f g n i = -1 \/ seq_compare f g n i = 0 \/ seq_compare f g n i = 1.
Proof.
  revert i. induction n as [|n IH]; intros i; simpl; [auto|].
  destruct (f i >? g i); [auto|]. destruct (f i <? g i); auto.
Qed.

(** Iterations past the end of both sequences change nothing. *)
Lemma seq_compare_more f g n k i :
  (forall j, (i + n <= j)%nat -> f j = 0 /\ g j = 0) ->
  seq_compare f g (n + k) i = seq_compare f g n i.
Proof.
  revert i. induction n as [|n IH]; intros i Hz.
  - simpl. revert i Hz. induction k as [|k IHk]; intros i Hz; [done|].
    simpl. destruct (Hz i) as [-> ->]; [lia|]. simpl. apply IHk.
    intros j Hj. apply Hz. lia.
  - simpl. rewrite IH; [done|]. intros j Hj. apply Hz. lia.
Qed.

Lemma nth_part_past parse parts j :
  (length parts <= j)%nat -> nth_part parse parts j = 0.
Proof. intros Hj. unfold nth_part. by rewrite lookup_ge_None_2. Qed.

(** The comparison of two versions can be run for any number of iterations
    that covers both. *)
Lemma pm_compareVersions_seq v1 v2 n :
  (length (Split v1 ".") <= n)%nat -> (length (Split v2 ".") <= n)%nat ->
  pm_compareVersions v1 v2 = seq_compare (version_key v1) (version_key v2) n O.
Proof.
  intros H1 H2. unfold pm_compareVersions. rewrite pm_compare_loop_seq.
  fold (version_key v1) (version_key v2).
  set (m := Nat.max _ _).
  replace n with (m + (n - m))%nat by lia.
  rewrite seq_compare_more; [done|].
  intros j Hj. unfold version_key. split; apply nth_part_past; lia.
Qed.

Lemma seq_compare_refl f n i : seq_compare f f n i = 0.
Proof.
  revert i. induction n as [|n IH]; intros i; simpl; [done|].
  rewrite Z.gtb_ltb, Z.ltb_irrefl. apply IH.
Qed.

Lemma seq_compare_trans f g h n i :
  seq_compare f g n i <= 0 -> seq_compare h g n i > 0 ->
  seq_compare f h n i <= 0.
Proof.
  revert i. induction n as [|n IH]; intros i; simpl; [lia|].
  destruct (Z.gtb_spec (f i) (g i)); [lia|].
  destruct (Z.gtb_spec (h i) (g i)).
  - intros _ _. destruct (Z.gtb_spec (f i) (h i)); [lia|].
    destruct (Z.ltb_spec (f i) (h i)); lia.
  - destruct (Z.ltb_spec (h i) (g i)); [lia|].
    destruct (Z.ltb_spec (f i) (g i)).
    + intros _ _. destruct (Z.gtb_spec (f i) (h i)); [lia|].
      destruct (Z.ltb_spec (f i) (h i)); lia.
    + intros Hfg Hhg. destruct (Z.gtb_spec (f i) (h i)); [lia|].
      destruct (Z.ltb_spec (f i) (h i)); [lia|]. by apply IH.
Qed.

Lemma pm_compareVersions_refl v : pm_compareVersions v v = 0.
Proof.
  rewrite (pm_compareVersions_seq v v (length (Split v "."))) by lia.
  apply seq_compare_refl.
Qed.

(** If [v'] is not above [best] and [v] is above [best], then [v'] is not
    above [v]. *)
Lemma pm_compareVersions_trans v' best v :
  pm_compareVersions v' best <= 0 -> pm_compareVersions v best > 0 ->
  pm_compareVersions v' v <= 0.
Proof.
  set (n := Nat.max (length (Split v' "."))
              (Nat.max (length (Split best ".")) (length (Split v ".")))).
  rewrite (pm_compareVersions_seq v' best n), (pm_compareVersions_seq v best n),
    (pm_compareVersions_seq v' v n) by lia.
  apply seq_compare_trans.
Qed.

(** ** The selection loop keeps a highest matching version *)

Section BestLoop.

Variable matches : string -> bool.
Hypothesis matches_nonempty : forall v, matches v = true -> v <> EmptyString.

Lemma best_step_inv seen bestVersion v :
  best_inv matches seen bestVersion ->
  best_inv matches (seen ++ [v]) (best_step matches bestVersion v).
Proof.
  unfold best_step. intros Hinv. destruct (matches v) eqn:Hv.
  - destruct Hinv as [[-> Hnone] | (Hin & Hm & Hmax)].
    + simpl. right. split; [set_solver|]. split; [done|].
      intros w [Hw | ->%list_elem_of_singleton]%elem_of_app Hmw.
      * rewrite Hnone in Hmw by done. done.
      * rewrite pm_compareVersions_refl. lia.
    + assert (String.eqb bestVersion "" = false) as ->.
      { apply String.eqb_neq. by apply matches_nonempty. }
      simpl. destruct (Z.gtb_spec (pm_compareVersions v bestVersion) 0).
      * right. split; [set_solver|]. split; [done|].
        intros w [Hw | ->%list_elem_of_singleton]%elem_of_app Hmw.
        -- apply (pm_compareVersions_trans w bestVersion v); [by apply Hmax|lia].
        -- rewrite pm_compareVersions_refl. lia.
      * right. split; [set_solver|]. split; [done|].
        intros w [Hw | ->%list_elem_of_singleton]%elem_of_app Hmw.
        -- by apply Hmax.
        -- lia.
  - destruct Hinv as [[-> Hnone] | (Hin & Hm & Hmax)].
    + left. split; [done|].
      intros w [Hw | ->%list_elem_of_singleton]%elem_of_app; auto.
    + right. split; [set_solver|]. split; [done|].
      intros w [Hw | ->%list_elem_of_singleton]%elem_of_app Hmw;
        [by apply Hmax | congruence].
Qed.

Lemma best_fold_inv rest seen bestVersion :
  best_inv matches seen bestVersion ->
  best_inv matches (seen ++ rest) (fold_left (best_step matches) rest bestVersion).
Proof.
  revert seen bestVersion. induction rest as [|v rest IH]; intros seen b Hinv.
  - by rewrite app_nil_r.
  - simpl. replace (seen ++ v :: rest) with ((seen ++ [v]) ++ rest)
      by (by rewrite <- app_assoc).
    apply IH. by apply best_step_inv.
Qed.

Lemma best_loop_inv order : best_inv matches order (best_loop matches order).
Proof.
  unfold best_loop. apply (best_fold_inv order []).
  left. split; [done|]. intros v Hv. by apply elem_of_nil in Hv.
Qed.

(** With a matching version among those visited, the loop ends on a
    matching version that no matching version is above. *)
Lemma best_loop_highest order v0 :
  v0 ∈ order -> matches v0 = true ->
  best_loop matches order ∈ order /\
  matches (best_loop matches order) = true /\
  forall v, v ∈ order -> matches v = true ->
            pm_compareVersions v (best_loop matches order) <= 0.
Proof.
  intros Hin Hm. destruct (best_loop_inv order) as [[_ Hnone] | H]; [|done].
  rewrite Hnone in Hm by done. done.
Qed.

(** With no matching version, the loop ends on the empty string. *)
Lemma best_loop_none order :
  (forall v, v ∈ order -> matches v = false) ->
  best_loop matches order = EmptyString.
Proof.
  intros Hnone. destruct (best_loop_inv order) as [[H _] | (Hin & Hm & _)]; [done|].
  rewrite Hnone in Hm by done. done.
Qed.

End BestLoop.

(** ** Reversal, trimming and searching *)

Lemma app_empty_r s : s +:+ EmptyString = s.
Proof. induction s as [|c s IH]; [done|]. by rewrite app_cons, IH. Qed.

Lemma str_app_assoc s1 s2 s3 : (s1 +:+ s2) +:+ s3 = s1 +:+ (s2 +:+ s3).
Proof. induction s1 as [|c s1 IH]; [done|]. by rewrite !app_cons, IH. Qed.

Lemma rev_app_app s1 s2 acc :
  String.rev_app (s1 +:+ s2) acc = String.rev_app s2 (String.rev_app s1 acc).
Proof.
  revert acc. induction s1 as [|c s1 IH]; intros acc; [done|].
  rewrite app_cons. simpl. apply IH.
Qed.

Lemma rev_snoc s z : String.rev (s +:+ String z EmptyString) = String z (String.rev s).
Proof. unfold String.rev. by rewrite rev_app_app. Qed.

Lemma rev_app_rev_app s a b :
  String.rev_app (String.rev_app s a) b = String.rev_app a (s +:+ b).
Proof.
  revert a b. induction s as [|c s IH]; intros a b; [done|].
  simpl. rewrite IH. by rewrite app_cons.
Qed.

Lemma rev_involutive s : String.rev (String.rev s) = s.
Proof. unfold String.rev. rewrite rev_app_rev_app. simpl. apply app_empty_r. Qed.

Lemma trim_left_go_id width s : width s = O -> trim_left_go width O s = s.
Proof. intros Hw. destruct s as [|c s]; [done|]. cbn [trim_left_go]. by rewrite Hw. Qed.

Lemma TrimSpace_id s :
  space_width s = O -> space_width_rev (String.rev s) = O -> TrimSpace s = s.
Proof.
  intros H1 H2. unfold TrimSpace.
  rewrite (trim_left_go_id _ _ H1), (trim_left_go_id _ _ H2).
  apply rev_involutive.
Qed.

Lemma space_width_rev_low c r :
  (nat_of_ascii c < 128)%nat -> ascii_space c = false ->
  space_width_rev (String c r) = O.
Proof.
  intros Hlow Hsp. unfold space_width_rev. rewrite Hsp.
  assert (Hb : forall n, (128 <= n)%nat -> byte_is c n = false).
  { intros n Hn. unfold byte_is. apply Nat.eqb_neq. lia. }
  assert (Hi : byte_in c 128 138 = false).
  { unfold byte_in. apply andb_false_iff. left. apply Nat.leb_gt. lia. }
  destruct r as [|c1 [|c2 r2]]; [done | |].
  - rewrite (Hb 133%nat), (Hb 160%nat) by lia. simpl. by rewrite andb_false_r.
  - rewrite (Hb 133%nat), (Hb 160%nat), (Hb 128%nat), (Hb 168%nat),
      (Hb 169%nat), (Hb 175%nat), (Hb 159%nat), Hi by lia.
    simpl. by rewrite !andb_false_r.
Qed.

Lemma chars_app s1 s2 :
  list_ascii_of_string (s1 +:+ s2) =
  list_ascii_of_string s1 ++ list_ascii_of_string s2.
Proof. induction s1 as [|c s1 IH]; [done|]. rewrite app_cons. simpl. by rewrite IH. Qed.

Lemma contains_char_false s a :
  (forall c, c ∈ list_ascii_of_string s -> c <> a) ->
  Contains s (String a EmptyString) = false.
Proof.
  induction s as [|c s IH]; intros Hs; [done|].
  cbn [Contains]. rewrite has_prefix_char.
  assert (c <> a) as Hc by (apply Hs; simpl; left).
  apply Ascii.eqb_neq in Hc. rewrite Hc. simpl. apply IH.
  intros c' Hc'. apply Hs. simpl. by right.
Qed.

Lemma all_digits_snoc s :
  nonempty_digits s ->
  exists s0 z, s = s0 +:+ String z EmptyString /\ is_digit z = true.
Proof.
  intros [Hne Hd]. induction s as [|c s IH]; [done|].
  simpl in Hd. apply andb_true_iff in Hd as [Hc Hd].
  destruct s as [|c' s'].
  - exists EmptyString, c. done.
  - destruct IH as (s0 & z & Hs & Hz); [done|done|].
    exists (String c s0), z. rewrite app_cons, <- Hs. done.
Qed.

Lemma split_dot_head X rest :
  all_digits X = true ->
  exists tl, Split (X +:+ String "." rest) "." = X :: tl.
Proof.
  intros HX.
  pose proof (hd_split_char "." (X +:+ String "." rest)) as Hhd.
  rewrite before_app in Hhd by (by apply all_digits_no_byte).
  simpl in Hhd. rewrite app_empty_r in Hhd.
  pose proof (split_go_nonempty "." 0 (X +:+ String "." rest)) as Hne.
  unfold Split in *. destruct (split_go _ _ _) as [|h tl]; [done|].
  simpl in Hhd. subst h. by exists tl.
Qed.

Lemma caret_match_major X v : caret_match X v = true <-> major_of v = X.
Proof.
  unfold caret_match, major_of.
  pose proof (split_go_nonempty "." 0 v) as Hne. unfold Split.
  destruct (split_go _ _ _) as [|h tl]; [done|]. simpl.
  apply String.eqb_eq.
Qed.

Lemma caret_match_nonempty X v :
  X <> EmptyString -> caret_match X v = true -> v <> EmptyString.
Proof. intros HX Hm ->. apply caret_match_major in Hm. by subst X. Qed.

(** A range of the form [^X.Y.Z] goes to the caret rule with major [X]. *)
Lemma resolve_caret X Y Z m order :
  nonempty_digits X -> nonempty_digits Y -> nonempty_digits Z ->
  resolveSingleVersion ("^" +:+ X +:+ "." +:+ Y +:+ "." +:+ Z) m order =
  best_loop (caret_match X) order.
Proof.
  intros HX HY HZ. unfold resolveSingleVersion.
  destruct (all_digits_snoc _ HZ) as (Z0 & z & -> & Hz).
  destruct HX as [HXne HX], HY as [HYne HY], HZ as [_ HZ].
  set (range := "^" +:+ X +:+ "." +:+ Y +:+ "." +:+ Z0 +:+ String z EmptyString).
  assert (Htrim : TrimSpace range = range).
  { apply TrimSpace_id.
    - unfold range. rewrite app_cons. apply space_width_low; [vm_compute; lia|done].
    - unfold range.
      replace ("^" +:+ X +:+ "." +:+ Y +:+ "." +:+ Z0 +:+ String z EmptyString)
        with (("^" +:+ X +:+ "." +:+ Y +:+ "." +:+ Z0) +:+ String z EmptyString)
        by (by rewrite !str_app_assoc).
      rewrite rev_snoc.
      apply space_width_rev_low; [by apply digit_low | by apply digit_not_space]. }
  rewrite Htrim.
  assert (Hx : Contains range "x" = false).
  { apply contains_char_false. unfold range. intros c.
    rewrite !chars_app. rewrite !elem_of_app. simpl.
    assert (Hdig : forall s, all_digits s = true ->
                     c ∈ list_ascii_of_string s -> c <> "x"%char).
    { intros s Hs. by apply all_digits_no_byte. }
    assert (HZ0 : all_digits Z0 = true).
    { clear -HZ. induction Z0 as [|c0 Z0 IH]; [done|].
      rewrite app_cons in HZ. simpl in *.
      apply andb_true_iff in HZ as [-> HZ]. by apply IH. }
    intros [H|[H|[H|[H|[H|[H|H]]]]]]; eauto;
      repeat (apply elem_of_cons in H as [->|H]; [done|]);
      try (by apply elem_of_nil in H).
    apply elem_of_cons in H as [->|H]; [|by apply elem_of_nil in H].
    intros ->. done. }
  rewrite Hx.
  unfold range. rewrite app_cons.
  unfold HasPrefix at 1. simpl String.prefix.
  replace (String.prefix "" _) with true by (by destruct (X +:+ _)).
  unfold TrimPrefix. unfold HasPrefix. simpl String.prefix.
  replace (String.prefix "" _) with true by (by destruct (X +:+ _)).
  simpl drop_str. rewrite app_nil.
  destruct (split_dot_head X (Y +:+ "." +:+ Z0 +:+ String z EmptyString) HX)
    as [tl Htl].
  change (X +:+ "." +:+ Y +:+ "." +:+ Z0 +:+ String z EmptyString)
    with (X +:+ String "." (Y +:+ "." +:+ Z0 +:+ String z EmptyString)).
  by rewrite Htl.
Qed.

(** C3: for a range [^X.Y.Z] and a version set with at least one version of
    major [X], the resolver returns an available version of major [X] that no
    available version of major [X] is above, in whatever order the map is
    visited. *)
Theorem caret_returns_highest_of_major X Y Z
    (m : gmap string PackageInfo) (order : list string) v0 :
  nonempty_digits X -> nonempty_digits Y -> nonempty_digits Z ->
  range_order m order ->
  is_Some (m !! v0) -> major_of v0 = X ->
  let r := resolveSingleVersion ("^" +:+ X +:+ "." +:+ Y +:+ "." +:+ Z) m order in
  is_Some (m !! r) /\ major_of r = X /\
  forall v, is_Some (m !! v) -> major_of v = X -> pm_compareVersions v r <= 0.
Proof.
  intros HX HY HZ [_ Hord] Hv0 Hmaj r. subst r.
  rewrite (resolve_caret X Y Z m order HX HY HZ).
  destruct (best_loop_highest (caret_match X)
              (fun v => caret_match_nonempty X v (proj1 HX)) order v0)
    as (Hin & Hm & Hmax).
  - by apply Hord.
  - by apply caret_match_major.
  - split; [by apply Hord|]. split; [by apply caret_match_major|].
    intros v Hv Hvm. apply Hmax; [by apply Hord | by apply caret_match_major].
Qed.

Ltac decide_true := refine (bool_decide_unpack _ _); vm_compute; exact I.

Lemma version_table_lookup packageName vs k :
  is_Some (version_table packageName vs !! k) <-> k ∈ vs.
Proof.
  unfold version_table. rewrite <- elem_of_dom, dom_list_to_map_L.
  rewrite elem_of_list_to_set, <- list_fmap_compose.
  replace (fst ∘ (fun v => (v, info_for packageName v))) with (@id string) by done.
  by rewrite list_fmap_id.
Qed.

Lemma version_table_order packageName vs :
  NoDup vs -> range_order (version_table packageName vs) vs.
Proof. intros Hnd. split; [done|]. intros k. by rewrite version_table_lookup. Qed.

Lemma caret_returns_highest_of_major_witness :
  let m := version_table "left-pad" ["1.2.0"; "2.0.0"; "1.10.0"] in
  let r := resolveSingleVersion "^1.0.0" m ["1.2.0"; "2.0.0"; "1.10.0"] in
  r = "1.10.0" /\ is_Some (m !! r) /\ major_of r = "1" /\
  forall v, is_Some (m !! v) -> major_of v = "1" -> pm_compareVersions v r <= 0.
Proof.
  intros m r. split; [reflexivity|].
  apply (caret_returns_highest_of_major "1" "0" "0" m
           ["1.2.0"; "2.0.0"; "1.10.0"] "1.2.0").
  - split; [discriminate | reflexivity].
  - split; [discriminate | reflexivity].
  - split; [discriminate | reflexivity].
  - apply version_table_order. decide_true.
  - apply version_table_lookup. decide_true.
  - reflexivity.
Defined.

(** ** Alternatives *)

Lemma first_resolved_app pre part post m order :
  (forall p, p ∈ pre -> resolveSingleVersion (TrimSpace p) m order = EmptyString) ->
  resolveSingleVersion (TrimSpace part) m order <> EmptyString ->
  first_resolved (pre ++ part :: post) m order =
  resolveSingleVersion (TrimSpace part) m order.
Proof.
  intros Hpre Hpart. induction pre as [|p pre IH]; simpl.
  - apply String.eqb_neq in Hpart. by rewrite Hpart.
  - rewrite (Hpre p) by set_solver. simpl. apply IH.
    intros q Hq. apply Hpre. set_solver.
Qed.

Lemma first_resolved_none parts m order :
  (forall p, p ∈ parts -> resolveSingleVersion (TrimSpace p) m order = EmptyString) ->
  first_resolved parts m order = EmptyString.
Proof.
  induction parts as [|p parts IH]; intros Hall; [done|].
  simpl. rewrite (Hall p) by set_solver. simpl. apply IH.
  intros q Hq. apply Hall. set_solver.
Qed.

Lemma resolve_caret_literal X Y Z range m order :
  nonempty_digits X -> nonempty_digits Y -> nonempty_digits Z ->
  range = "^" +:+ X +:+ "." +:+ Y +:+ "." +:+ Z ->
  resolveSingleVersion range m order = best_loop (caret_match X) order.
Proof. intros HX HY HZ ->. by apply resolve_caret. Qed.

(** C2: a range with [||] is split on [||] and its alternatives are tried
    from the left; the answer is that of the first alternative with a match,
    whatever later alternatives would give, and is empty when none has one.
    In particular [^2.0.0 || ^1.0.0] against the versions 1.5.0 and 3.0.0
    gives 1.5.0. *)
Theorem alternatives_left_to_right :
  (forall range (m : gmap string PackageInfo) order pre part post,
     Contains range "||" = true ->
     Split range "||" = pre ++ part :: post ->
     (forall p, p ∈ pre ->
        resolveSingleVersion (TrimSpace p) m order = EmptyString) ->
     resolveSingleVersion (TrimSpace part) m order <> EmptyString ->
     resolveVersionRange range m order =
     resolveSingleVersion (TrimSpace part) m order) /\
  (forall range (m : gmap string PackageInfo) order,
     Contains range "||" = true ->
     (forall p, p ∈ Split range "||" ->
        resolveSingleVersion (TrimSpace p) m order = EmptyString) ->
     resolveVersionRange range m order = EmptyString) /\
  (forall (m : gmap string PackageInfo) order,
     range_order m order ->
     (forall k, is_Some (m !! k) <-> k = "1.5.0" \/ k = "3.0.0") ->
     resolveVersionRange "^2.0.0 || ^1.0.0" m order = "1.5.0").
Proof.
  split; [|split].
  - intros range m order pre part post Hc Hsplit Hpre Hpart.
    unfold resolveVersionRange. rewrite Hc, Hsplit.
    by apply first_resolved_app.
  - intros range m order Hc Hall. unfold resolveVersionRange. rewrite Hc.
    by apply first_resolved_none.
  - intros m order [_ Hord] Hkeys.
    assert (Hin : forall v, v ∈ order -> v = "1.5.0" \/ v = "3.0.0").
    { intros v Hv. apply Hkeys. by apply Hord. }
    assert (H2 : resolveSingleVersion "^2.0.0" m order = EmptyString).
    { rewrite (resolve_caret_literal "2" "0" "0");
        [|split; [discriminate|reflexivity]..|reflexivity].
      apply best_loop_none; [intros v; by apply caret_match_nonempty|].
      intros v [-> | ->]%Hin; reflexivity. }
    assert (H1 : resolveSingleVersion "^1.0.0" m order = "1.5.0").
    { rewrite (resolve_caret_literal "1" "0" "0");
        [|split; [discriminate|reflexivity]..|reflexivity].
      destruct (best_loop_highest (caret_match "1")
                  (fun v => caret_match_nonempty "1" v ltac:(discriminate))
                  order "1.5.0") as (Hb & Hm & _).
      - apply Hord, Hkeys. by left.
      - reflexivity.
      - destruct (Hin _ Hb) as [E | E]; [done|].
        rewrite E in Hm. discriminate Hm. }
    unfold resolveVersionRange.
    change (Contains "^2.0.0 || ^1.0.0" "||") with true.
    change (Split "^2.0.0 || ^1.0.0" "||") with ["^2.0.0 "; " ^1.0.0"].
    cbn [first_resolved].
    change (TrimSpace "^2.0.0 ") with "^2.0.0".
    change (TrimSpace " ^1.0.0") with "^1.0.0".
    rewrite H2, H1. reflexivity.
Qed.

Lemma alternatives_left_to_right_witness :
  let m := version_table "left-pad" ["1.5.0"; "3.0.0"] in
  let order := ["3.0.0"; "1.5.0"] in
  resolveVersionRange "^2.0.0 || ^1.0.0" m order = "1.5.0" /\
  resolveVersionRange "^2.0.0 || ^1.0.0" m order =
  resolveSingleVersion (TrimSpace " ^1.0.0") m order /\
  resolveVersionRange "^4.0.0 || ^5.0.0" m order = EmptyString.
Proof.
  intros m order. split; [|split].
  - apply (proj2 (proj2 alternatives_left_to_right) m order).
    + split; [decide_true|].
      intros k. unfold m, order. rewrite version_table_lookup.
      rewrite !elem_of_cons, elem_of_nil. tauto.
    + intros k. unfold m. rewrite version_table_lookup.
      rewrite !elem_of_cons, elem_of_nil. tauto.
  - apply (proj1 alternatives_left_to_right "^2.0.0 || ^1.0.0" m order
             ["^2.0.0 "] " ^1.0.0" []).
    + reflexivity.
    + reflexivity.
    + intros p ->%list_elem_of_singleton. reflexivity.
    + discriminate.
  - apply (proj1 (proj2 alternatives_left_to_right) "^4.0.0 || ^5.0.0" m order).
    + reflexivity.
    + intros p Hp.
      change (Split "^4.0.0 || ^5.0.0" "||") with ["^4.0.0 "; " ^5.0.0"] in Hp.
      apply elem_of_cons in Hp as [-> | ->%list_elem_of_singleton]; reflexivity.
Defined.

(** ** The fall-back to the [latest] dist-tag *)

(** C4, as the code has it: the fall-back is behind the test for range
    syntax.  A range other than [latest] for which resolution yields nothing
    continues with the version of the [latest] dist-tag, or fails with the
    could-not-resolve error when the tag is absent, if it contains [x], [||],
    [^] or [~]; any other range is looked up as it is, without fall-back. *)
Theorem fallback_behind_range_syntax registryResp order packageName version :
  version <> "latest" ->
  resolveVersionRange version (Versions registryResp) order = EmptyString ->
  getPackageInfo (Response 200 (Some registryResp)) order packageName version =
  if has_range_syntax version
  then match DistTags registryResp !! "latest" with
       | Some latestVersion => lookup_version registryResp latestVersion packageName
       | None => Err (CouldNotResolve version packageName)
       end
  else lookup_version registryResp version packageName.
Proof.
  intros Hlatest Hres. unfold getPackageInfo. simpl.
  apply String.eqb_neq in Hlatest. rewrite Hlatest.
  destruct (has_range_syntax version); [|done].
  by rewrite Hres.
Qed.

Lemma fallback_behind_range_syntax_witness :
  "^9.0.0" <> "latest" /\
  resolveVersionRange "^9.0.0" (Versions single_version_answer) ["1.0.0"] = EmptyString /\
  getPackageInfo (Response 200 (Some single_version_answer)) ["1.0.0"]
    "left-pad" "^9.0.0" = Ok (info_for "left-pad" "1.0.0").
Proof.
  split; [discriminate|]. split; [reflexivity|].
  rewrite (fallback_behind_range_syntax single_version_answer ["1.0.0"]
             "left-pad" "^9.0.0"); [reflexivity | discriminate | reflexivity].
Defined.

(** C4, as stated, fails for a range without range syntax: the exact version
    9.9.9 is not available, the answer has a [latest] tag, and the lookup
    ends in the version-not-found error. *)
Lemma fallback_not_for_exact_versions :
  ~ fallback_as_stated single_version_answer ["1.0.0"] "left-pad" "9.9.9".
Proof.
  intros H.
  specialize (H ltac:(discriminate) eq_refl "1.0.0" eq_refl).
  vm_compute in H. discriminate H.
Qed.

Example exact_version_not_found :
  getPackageInfo (Response 200 (Some single_version_answer)) ["1.0.0"]
    "left-pad" "9.9.9" = Err (VersionNotFound "9.9.9" "left-pad").
Proof. reflexivity. Qed.

(** ** Removing a package from the lock structure *)

Lemma lookup_fold_delete {A} (ks : list string) (m : gmap string A) key :
  fold_left (fun m k => delete k m) ks m !! key =
  if bool_decide (key ∈ ks) then None else m !! key.
Proof.
  revert m. induction ks as [|k ks IH]; intros m; simpl; [done|].
  rewrite IH. destruct (decide (key = k)) as [->|Hne].
  - rewrite lookup_delete_eq, (bool_decide_eq_true_2 (k ∈ k :: ks))
      by (apply elem_of_cons; by left).
    by destruct (bool_decide _).
  - rewrite lookup_delete_ne by done.
    destruct (decide (key ∈ ks)) as [Hin|Hnin].
    + rewrite !bool_decide_eq_true_2; [done | | done].
      apply elem_of_cons. by right.
    + rewrite !bool_decide_eq_false_2; [done | | done].
      intros [?|?]%elem_of_cons; done.
Qed.

Lemma elem_of_range_entries {A} (m : gmap string A) order key v :
  (key, v) ∈ range_entries m order <-> key ∈ order /\ m !! key = Some v.
Proof.
  unfold range_entries. rewrite list_elem_of_omap. split.
  - intros (k & Hk & Hv). destruct (m !! k) as [v'|] eqn:E; simplify_eq/=. done.
  - intros [Hk Hv]. exists key. by rewrite Hv.
Qed.

Lemma elem_of_keysToRemove order name lf key :
  key ∈ (filter (fun e => lp_Name e.2 = name)
           (range_entries (Packages lf) order)).*1 <->
  key ∈ order /\ exists pkg, Packages lf !! key = Some pkg /\ lp_Name pkg = name.
Proof.
  rewrite list_elem_of_fmap. split.
  - intros ([k pkg] & -> & [Hn [Hk Hpkg]%elem_of_range_entries]%list_elem_of_filter).
    simpl in *. split; [done|]. by exists pkg.
  - intros (Hk & pkg & Hpkg & Hn). exists (key, pkg). split; [done|].
    apply list_elem_of_filter. split; [done|]. by apply elem_of_range_entries.
Qed.

(** C9: [removePackage name] keeps every entry whose [Name] is another one
    and the specifier rows of every other name, removes every entry with that
    name and both rows of the name, and adds nothing. *)
Theorem removePackage_frame order name lf :
  range_order (Packages lf) order ->
  let lf' := removePackage order name lf in
  (forall key pkg, Packages lf !! key = Some pkg -> lp_Name pkg <> name ->
                   Packages lf' !! key = Some pkg) /\
  (forall other, other <> name ->
                 Specifiers lf' !! other = Specifiers lf !! other /\
                 DevPackages lf' !! other = DevPackages lf !! other) /\
  (forall key pkg, Packages lf' !! key = Some pkg ->
                   Packages lf !! key = Some pkg /\ lp_Name pkg <> name) /\
  Specifiers lf' !! name = None /\ DevPackages lf' !! name = None /\
  lf_Version lf' = lf_Version lf /\ CreatedAt lf' = CreatedAt lf.
Proof.
  intros [_ Hord] lf'. subst lf'. unfold removePackage. simpl.
  split; [|split; [|split; [|split; [|split]]]].
  - intros key pkg Hkey Hn. rewrite lookup_fold_delete.
    rewrite bool_decide_eq_false_2; [done|].
    rewrite elem_of_keysToRemove. intros (_ & pkg' & Hpkg' & Hn').
    congruence.
  - intros other Hother. by rewrite !lookup_delete_ne.
  - intros key pkg Hkey. rewrite lookup_fold_delete in Hkey.
    destruct (decide (key ∈ (filter (fun e => lp_Name e.2 = name)
                      (range_entries (Packages lf) order)).*1)) as [Hin|Hnin].
    + by rewrite bool_decide_eq_true_2 in Hkey.
    + rewrite bool_decide_eq_false_2 in Hkey by done. split; [done|].
      intros Hn. apply Hnin. apply elem_of_keysToRemove.
      split; [apply Hord; by rewrite Hkey | by exists pkg].
  - apply lookup_delete_eq.
  - apply lookup_delete_eq.
  - done.
Qed.

Lemma range_order_dom {A} (m : gmap string A) order :
  NoDup order -> list_to_set order = dom m -> range_order m order.
Proof.
  intros Hnd Hdom. split; [done|]. intros k.
  by rewrite <- elem_of_dom, <- Hdom, elem_of_list_to_set.
Qed.

Lemma removePackage_frame_witness :
  let order := ["chalk@5.3.0"; "left-pad@1.3.0"] in
  let lf' := removePackage order "chalk" two_package_lock in
  range_order (Packages two_package_lock) order /\
  Packages lf' !! "chalk@5.3.0" = None /\
  Packages lf' !! "left-pad@1.3.0" = Packages two_package_lock !! "left-pad@1.3.0" /\
  Specifiers lf' !! "left-pad" = Some "left-pad" /\
  DevPackages lf' !! "chalk" = None.
Proof.
  intros order lf'.
  assert (Hord : range_order (Packages two_package_lock) order).
  { apply range_order_dom; decide_true. }
  split; [exact Hord|].
  destruct (removePackage_frame order "chalk" two_package_lock Hord)
    as (Hkeep & Hrows & Honly & Hspec & Hdev & _).
  subst lf'. split; [|split; [|split]].
  - reflexivity.
  - reflexivity.
  - rewrite (proj1 (Hrows "left-pad" ltac:(discriminate))). reflexivity.
  - exact Hdev.
Defined.

(** ** Persisting and reloading the lock structure *)

Section MapCodec.

Context {A : Type}.
Variable encode : A -> yaml.
Variable decode : yaml -> option A.
Hypothesis decode_encode : forall v, decode (encode v) = Some v.

Lemma decode_map_marshal (m : gmap string A) :
  decode_map decode (YMap ((fun e => (e.1, encode e.2)) <$> map_to_list m)) = Some m.
Proof.
  unfold decode_map.
  assert (Hkeys : ((fun e : string * A => (e.1, encode e.2)) <$> map_to_list m).*1
                  = (map_to_list m).*1).
  { rewrite <- list_fmap_compose. by apply list_fmap_ext. }
  rewrite Hkeys, bool_decide_eq_true_2 by apply NoDup_fst_map_to_list.
  rewrite (mapM_fmap_Some _ (fun e : string * A => (e.1, encode e.2))).
  - simpl. by rewrite list_to_map_to_list.
  - intros [k v]. simpl. by rewrite decode_encode.
Qed.

End MapCodec.

Lemma decode_str_YStr s : decode_str (YStr s) = Some s.
Proof. done. Qed.

Lemma decode_strings_marshal (m : gmap string string) :
  decode_map decode_str (marshal_strings m) = Some m.
Proof. apply (decode_map_marshal YStr decode_str decode_str_YStr). Qed.

Lemma unmarshal_marshal_package p :
  unmarshalLockPackage (marshalLockPackage p) = Some p.
Proof.
  destruct p as [name version resolved integrity deps dev].
  unfold marshalLockPackage, field,
    field_omitempty_str, field_omitempty_strings, field_omitempty_bool.
  cbn [lp_Name lp_Version Resolved Integrity Dependencies DevDep].
  destruct (String.eqb_spec integrity "") as [-> | Hi];
    destruct (bool_decide (deps = ∅)) eqn:Hd;
    try (apply bool_decide_eq_true_1 in Hd as ->);
    destruct dev; cbn [app]; unfold unmarshalLockPackage;
    (rewrite bool_decide_eq_true_2 by decide_true);
    unfold decode_field; cbn -[decode_map marshal_strings];
    rewrite ?decode_strings_marshal; simpl; done.
Qed.

Lemma decode_packages_marshal (m : gmap string LockPackage) :
  decode_map unmarshalLockPackage (marshal_packages m) = Some m.
Proof.
  apply (decode_map_marshal marshalLockPackage unmarshalLockPackage
           unmarshal_marshal_package).
Qed.

Lemma unmarshal_marshal_lock lf :
  unmarshalLockFile (marshalLockFile lf) =
  Some {| d_Version := lf_Version lf; d_CreatedAt := CreatedAt lf;
          d_Packages := Some (Packages lf);
          d_Specifiers := Some (Specifiers lf);
          d_DevPackages := if bool_decide (DevPackages lf = ∅) then None
                           else Some (DevPackages lf) |}.
Proof.
  destruct lf as [version created packages specifiers devPackages].
  unfold marshalLockFile, field, field_omitempty_strings.
  cbn [lf_Version CreatedAt Packages Specifiers DevPackages].
  destruct (bool_decide (devPackages = ∅)) eqn:Hd;
    cbn [app]; unfold unmarshalLockFile;
    (rewrite bool_decide_eq_true_2 by decide_true);
    unfold decode_field; cbn -[decode_map marshal_strings marshal_packages];
    rewrite decode_packages_marshal, ?decode_strings_marshal; simpl; done.
Qed.

Section RoundTrip.

Variable bytes : Type.
Variable yaml_encode : yaml -> bytes.
Variable yaml_decode : bytes -> option yaml.

(** The text layer gives back the tree it was given. *)
Hypothesis yaml_decode_encode : forall y, yaml_decode (yaml_encode y) = Some y.

(** C5: a lock structure that was persisted reloads as a structure with the
    same package entries, the same specifier table, the same dev-specifier
    table and the same format version; only the creation time differs, it is
    the time of the persist. *)
Theorem save_then_load lf now now' disk lf1 disk1 :
  saveLockFile bytes yaml_encode now true lf disk = (lf1, disk1, None) ->
  exists lf2,
    loadLockFile bytes yaml_decode now' true disk1 = Ok lf2 /\
    Packages lf2 = Packages lf /\
    Specifiers lf2 = Specifiers lf /\
    DevPackages lf2 = DevPackages lf /\
    lf_Version lf2 = lf_Version lf /\
    CreatedAt lf2 = now.
Proof.
  unfold saveLockFile. intros [= <- <-]. unfold loadLockFile.
  rewrite yaml_decode_encode. unfold mbind, option_bind.
  rewrite unmarshal_marshal_lock.
  eexists. split; [reflexivity|]. simpl.
  split; [done|]. split; [done|]. split; [|done].
  destruct (bool_decide (DevPackages lf = ∅)) eqn:Hd; [|done].
  by apply bool_decide_eq_true_1 in Hd.
Qed.

End RoundTrip.

Lemma save_then_load_witness :
  let saved := saveLockFile yaml (fun y => y) 1730000000 true two_package_lock None in
  saved.2 = None /\
  exists lf2,
    loadLockFile yaml Some 1730000999 true saved.1.2 = Ok lf2 /\
    Packages lf2 = Packages two_package_lock /\
    Specifiers lf2 = Specifiers two_package_lock /\
    DevPackages lf2 = DevPackages two_package_lock /\
    lf_Version lf2 = "1.0" /\
    CreatedAt lf2 = 1730000000.
Proof.
  intros saved. split; [reflexivity|].
  apply (save_then_load yaml (fun y => y) Some (fun y => eq_refl)
           two_package_lock 1730000000 1730000999 None saved.1.1 saved.1.2).
  reflexivity.
Defined.

(** ** Extraction skips what leaves the destination *)

Lemma has_prefix_app s p : HasPrefix s p = true -> exists rest, s = p +:+ rest.
Proof.
  unfold HasPrefix. revert s. induction p as [|a p IH]; intros s Hp.
  - by exists s.
  - destruct s as [|c s]; [done|]. simpl in Hp.
    destruct (ascii_dec a c) as [->|]; [|done].
    destruct (IH _ Hp) as [rest ->]. by exists rest.
Qed.

Lemma split_char_app a d rest :
  Split (d +:+ String a rest) (String a EmptyString) =
  Split d (String a EmptyString) ++ Split rest (String a EmptyString).
Proof.
  induction d as [|c d IH].
  - rewrite app_nil, split_char_cons, Ascii.eqb_refl. done.
  - rewrite app_cons, !split_char_cons, IH. destruct (Ascii.eqb c a); [done|].
    pose proof (split_go_nonempty (String a EmptyString) 0 d) as Hne.
    unfold Split in *. by destruct (split_go _ 0 d).
Qed.

(** What passes the prefix test of the loop is in the destination,
    component by component. *)
Lemma not_outside_within destPath target :
  outside_destination destPath target = false -> within destPath target.
Proof.
  unfold outside_destination, within.
  intros [H|H]%andb_false_iff; apply negb_false_iff in H.
  - destruct (has_prefix_app _ _ H) as [rest ->].
    rewrite str_app_assoc.
    change ("/" +:+ rest) with (String "/" rest).
    rewrite split_char_app. by apply prefix_app_r.
  - apply String.eqb_eq in H. by rewrite H.
Qed.

Lemma extract_entry_skips destPath cachePath header fs :
  ~ within destPath (entry_target destPath header) ->
  extract_entry destPath cachePath header fs = (Ok tt, fs).
Proof.
  intros Hout. unfold extract_entry.
  destruct (String.eqb _ "" || String.eqb _ (h_Name header)); [done|].
  destruct (outside_destination destPath _) eqn:Ho; [done|].
  destruct Hout. by apply not_outside_within.
Qed.

Lemma io_bind_assoc {S E A B C} (m : prog S E A) (k : A -> prog S E B)
    (l : B -> prog S E C) fs :
  io_bind (io_bind m k) l fs = io_bind m (fun a => io_bind (k a) l) fs.
Proof. unfold io_bind. by destruct (m fs) as [[a|e] fs']. Qed.

Lemma io_bind_ext {S E A B} (m : prog S E A) (k k' : A -> prog S E B) fs :
  (forall a fs', k a fs' = k' a fs') -> io_bind m k fs = io_bind m k' fs.
Proof. intros Hk. unfold io_bind. by destruct (m fs) as [[a|e] fs']. Qed.

Lemma extract_loop_app destPath cachePath pre post fs :
  extract_loop destPath cachePath (pre ++ post) fs =
  (extract_loop destPath cachePath pre ;; extract_loop destPath cachePath post) fs.
Proof.
  revert fs. induction pre as [|h pre IH]; intros fs.
  - simpl. unfold io_bind, io_ret. done.
  - simpl. rewrite io_bind_assoc. unfold io_bind at 1 2.
    destruct (extract_entry destPath cachePath h fs) as [[[]|e] fs']; [|done].
    apply IH.
Qed.

Lemma extract_loop_skips destPath cachePath pre header post fs :
  ~ within destPath (entry_target destPath header) ->
  extract_loop destPath cachePath (pre ++ header :: post) fs =
  extract_loop destPath cachePath (pre ++ post) fs.
Proof.
  intros Hout. rewrite !extract_loop_app. unfold io_bind at 1 2.
  destruct (extract_loop destPath cachePath pre fs) as [[[]|e] fs']; [|done].
  simpl. unfold io_bind at 1. by rewrite extract_entry_skips.
Qed.



(** The archive with the climbing entry, extracted into an empty tree:
    the extraction succeeds, the manifest and the later file are in the
    project tree and in the cache, nothing is where the climbing entry and
    the entry outside [package/] point, and every path of the tree is the
    modules directory, the top of the cache path, or below one of them. *)
Example climbing_archive_extracted :
  let '(r, fs) := extractAndCache user_cache climbing_archive
                    "node_modules/left-pad" "left-pad" "1.3.0" ∅ in
  r = Ok tt /\
  fs !! "node_modules/left-pad/package.json" =
    Some (FileNode (manifest_text "left-pad" "1.3.0")) /\
  fs !! "node_modules/left-pad/lib/index.js" =
    Some (FileNode "module.exports = leftPad;") /\
  fs !! (getPackagePath user_cache "left-pad" "1.3.0" +:+ "/lib/index.js") =
    Some (FileNode "module.exports = leftPad;") /\
  fs !! "evil" = None /\ fs !! "../evil" = None /\ fs !! "/etc/passwd" = None /\
  paths_outside "node_modules" fs =
    ["/home/u/.cache/gpm/left-pad-1.3.0-21db9ce4773b/lib/index.js";
     "/home/u/.cache/gpm/left-pad-1.3.0-21db9ce4773b/lib";
     "/home/u/.cache/gpm/left-pad-1.3.0-21db9ce4773b/package.json";
     "/home/u/.cache/gpm/left-pad-1.3.0-21db9ce4773b";
     "/home/u/.cache/gpm"; "/home/u/.cache"; "/home/u"; "/home"].
Proof. vm_compute. repeat split; reflexivity. Qed.

(** ** The names of the cache directories *)

Lemma split_char_none a s :
  (forall c, c ∈ list_ascii_of_string s -> c <> a) ->
  Split s (String a EmptyString) = [s].
Proof.
  induction s as [|c s IH]; intros Hs; [done|].
  rewrite split_char_cons.
  assert (c <> a) as Hc by (apply Hs; simpl; left).
  apply Ascii.eqb_neq in Hc. rewrite Hc, IH; [done|].
  intros c' Hc'. apply Hs. simpl. by right.
Qed.

Lemma join_cons_char c piece rest sep :
  GoStrings.Join (String c piece :: rest) sep =
  String c (GoStrings.Join (piece :: rest) sep).
Proof. by destruct rest. Qed.

Lemma join_split_char a s :
  GoStrings.Join (Split s (String a EmptyString)) (String a EmptyString) = s.
Proof.
  induction s as [|c s IH]; [done|].
  rewrite split_char_cons.
  pose proof (split_go_nonempty (String a EmptyString) 0 s) as Hne.
  unfold Split in *. destruct (split_go _ 0 s) as [|piece rest]; [done|].
  destruct (Ascii.eqb_spec c a) as [->|Hc].
  - change (GoStrings.Join (EmptyString :: piece :: rest) (String a EmptyString))
      with (EmptyString +:+ String a EmptyString +:+
            GoStrings.Join (piece :: rest) (String a EmptyString)).
    by rewrite IH.
  - by rewrite join_cons_char, IH.
Qed.

Lemma hex_digit_not_hyphen x : 0 <= x < 16 -> hex.digit x <> "-"%char.
Proof.
  intros Hx. assert (exists n : nat, (n < 16)%nat /\ x = Z.of_nat n) as (n & Hn & ->).
  { exists (Z.to_nat x). lia. }
  do 16 (destruct n as [|n]; [by vm_compute|]). lia.
Qed.

Lemma hex_no_hyphen bs c :
  Forall (fun b => 0 <= b < 256) bs ->
  c ∈ list_ascii_of_string (hex.EncodeToString bs) -> c <> "-"%char.
Proof.
  induction 1 as [|b bs Hb _ IH]; simpl; [by intros ?%elem_of_nil|].
  intros [->|[->|Hc]%elem_of_cons]%elem_of_cons; [| |by apply IH].
  - apply hex_digit_not_hyphen. split; [apply Z.div_pos; lia|].
    apply Z.div_lt_upper_bound; lia.
  - apply hex_digit_not_hyphen. apply Z.mod_pos_bound. lia.
Qed.

Lemma sum256_bytes data : Forall (fun b => 0 <= b < 256) (sha256.Sum256 data).
Proof.
  unfold sha256.Sum256. apply Forall_forall. intros b Hb.
  apply list_elem_of_bind in Hb as (x & Hb & _).
  unfold sha256.be_bytes in Hb. apply list_elem_of_fmap in Hb as (i & -> & _).
  apply Z.mod_pos_bound. lia.
Qed.

Lemma substring_chars n m s c :
  c ∈ list_ascii_of_string (String.substring n m s) ->
  c ∈ list_ascii_of_string s.
Proof.
  revert n m. induction s as [|a s IH]; intros n m.
  - by destruct n, m.
  - destruct n as [|n]; destruct m as [|m]; simpl;
      try (by intros ?%elem_of_nil).
    + intros [->|Hc]%elem_of_cons; apply elem_of_cons; [by left|].
      right. by eapply IH.
    + intros Hc. apply elem_of_cons. right. by eapply IH.
    + intros Hc. apply elem_of_cons. right. by eapply IH.
Qed.

(** What does hold of the naming convention: for a version without hyphen,
    the name of the cache directory is read back as the package name and the
    version, whatever hyphens the package name has. *)
Lemma parse_entry_name_plain name version :
  (forall c, c ∈ list_ascii_of_string version -> c <> "-"%char) ->
  parse_entry_name (cache_entry_name name version) = Some (name, version).
Proof.
  intros Hversion. unfold parse_entry_name, cache_entry_name.
  set (hashStr := take_str 12 _).
  assert (Hhash : forall c, c ∈ list_ascii_of_string hashStr -> c <> "-"%char).
  { intros c Hc%substring_chars. eapply hex_no_hyphen; [|exact Hc].
    apply sum256_bytes. }
  change (name +:+ "-" +:+ version +:+ "-" +:+ hashStr)
    with (name +:+ String "-" (version +:+ String "-" hashStr)).
  rewrite !split_char_app, (split_char_none _ version Hversion),
    (split_char_none _ hashStr Hhash).
  set (parts := Split name "-").
  assert (Hlen : (1 <= length parts)%nat).
  { pose proof (split_go_nonempty "-" 0 name) as Hne. unfold parts, Split.
    destruct (split_go _ _ _); [done|simpl; lia]. }
  rewrite !length_app. simpl length.
  replace (length parts + (1 + 1) - 2)%nat with (length parts) by lia.
  destruct (Nat.leb_spec 3 (length parts + (1 + 1))); [|lia].
  rewrite take_app_length, lookup_app_r by lia.
  rewrite Nat.sub_diag. simpl. unfold parts. by rewrite join_split_char.
Qed.

(** C8 fails on a version with a hyphen: the cache directory of foo at
    1.0.0-beta is listed as the package foo-1.0.0 at version beta. *)
Theorem prerelease_listed_under_wrong_name :
  match MkdirAll ∅ (getPackagePath user_cache "foo" "1.0.0-beta") with
  | Ok fs =>
      listPackages user_cache fs =
      ([{| cp_Name := "foo-1.0.0"; cp_Version := "beta";
           cp_Path := "/home/u/.cache/gpm/foo-1.0.0-beta-2bc8049fede8" |}], None)
  | Err _ => False
  end.
Proof. vm_compute. reflexivity. Qed.

(** A scoped package is not listed at all: its cache directory is one level
    further down. *)
Example scoped_not_listed :
  match MkdirAll ∅ (getPackagePath user_cache "@types/node" "20.1.0") with
  | Ok fs => listPackages user_cache fs = ([], None)
  | Err _ => False
  end.
Proof. vm_compute. reflexivity. Qed.

Example hyphenated_name_listed :
  match MkdirAll ∅ (getPackagePath user_cache "left-pad" "1.3.0") with
  | Ok fs =>
      listPackages user_cache fs =
      ([{| cp_Name := "left-pad"; cp_Version := "1.3.0";
           cp_Path := "/home/u/.cache/gpm/left-pad-1.3.0-21db9ce4773b" |}], None)
  | Err _ => False
  end.
Proof. vm_compute. reflexivity. Qed.

(** The digest of the standard test message. *)
Example sha256_abc :
  hex.EncodeToString (sha256.Sum256 "abc") =
  "ba7816bf8f01cfea414140de5dae2223b00361a396177a9cb410ff61f20015ad".
Proof. vm_compute. reflexivity. Qed.

(** ** Installing a second time *)

Lemma io_bind_Ok {S E A B} (m : prog S E A) (k : A -> prog S E B) s b s' :
  io_bind m k s = (Ok b, s') ->
  exists a s1, m s = (Ok a, s1) /\ k a s1 = (Ok b, s').
Proof.
  unfold io_bind. destruct (m s) as [[a|e] s1]; [|done].
  intros Hk. by exists a, s1.
Qed.

Lemma io_map_err_Ok {S E E' A} (f : E -> E') (m : prog S E A) s a s' :
  io_map_err f m s = (Ok a, s') -> m s = (Ok a, s').
Proof. unfold io_map_err. destruct (m s) as [[a'|e] s1]; by intros [= <- <-]. Qed.

Lemma MkdirAll_existing fs path :
  is_dir fs path = true -> MkdirAll fs path = Ok fs.
Proof.
  unfold is_dir, fs_stat, MkdirAll.
  by destruct (stat_key fs (filepath.Clean path)) as [[|c]|].
Qed.

Lemma install_resolved_version ev pm packageName pkgInfo w v c w' :
  install_resolved ev pm packageName pkgInfo w = (Ok (v, c), w') ->
  v = pi_Version pkgInfo.
Proof.
  unfold install_resolved.
  intros (installed & w1 & _ & H)%io_bind_Ok.
  destruct installed; [by inversion H|].
  apply io_bind_Ok in H as (cached & w2 & _ & H).
  apply io_bind_Ok in H as (copied & w3 & _ & H).
  destruct copied as [[]|e]; [by inversion H|].
  apply io_bind_Ok in H as ([] & w4 & _ & H). by inversion H.
Qed.

(** A successful [Install] resolved the package to the version it
    returns. *)
Lemma Install_resolved ev pm packageName version w v c w' :
  Install ev pm packageName version w = (Ok (v, c), w') ->
  exists pkgInfo,
    getPackageInfo (http_registry ev (registryURL pm +:+ "/" +:+ packageName))
      (match http_registry ev (registryURL pm +:+ "/" +:+ packageName) with
       | Response _ (Some registryResp) =>
           range_keys ev (dom (Versions registryResp))
       | _ => []
       end) packageName version = Ok pkgInfo /\
    pi_Version pkgInfo = v.
Proof.
  unfold Install.
  intros ([] & w1 & _ & H)%io_bind_Ok.
  apply io_bind_Ok in H as (pkgInfo & w2 & Hinfo & H).
  apply io_map_err_Ok in Hinfo. unfold fetchPackageInfo in Hinfo.
  apply io_bind_Ok in Hinfo as ([] & w3 & _ & Hinfo).
  exists pkgInfo. split; [by inversion Hinfo|].
  symmetry. by eapply install_resolved_version.
Qed.

Lemma install_resolved_installed ev pm packageName pkgInfo w :
  isPackageInstalled ev (w_fs w)
    (filepath.Join [nodeModulesPath pm; packageName]) (pi_Version pkgInfo) = true ->
  install_resolved ev pm packageName pkgInfo w = (Ok (pi_Version pkgInfo, true), w).
Proof.
  intros Hinst. unfold install_resolved, io_bind, read_world. by rewrite Hinst.
Qed.

Lemma getPackageVersion_only order name v lf key pkg :
  range_order (Packages lf) order ->
  Packages lf !! key = Some pkg -> lp_Name pkg = name ->
  only_version name v lf ->
  getPackageVersion order name lf = v.
Proof.
  intros [_ Hord] Hkey Hname Honly. unfold getPackageVersion.
  destruct (filter _ _) as [|[k p] rest] eqn:Hf.
  - assert ((key, pkg) ∈ filter (fun e => lp_Name e.2 = name)
              (range_entries (Packages lf) order)) as Hin.
    { apply list_elem_of_filter. split; [done|].
      apply elem_of_range_entries. split; [|done]. apply Hord. by rewrite Hkey. }
    rewrite Hf in Hin. by apply elem_of_nil in Hin.
  - assert ((k, p) ∈ filter (fun e => lp_Name e.2 = name)
              (range_entries (Packages lf) order)) as Hin.
    { rewrite Hf. apply elem_of_cons. by left. }
    apply list_elem_of_filter in Hin as [Hn [_ Hp]%elem_of_range_entries].
    by apply (Honly k p Hp).
Qed.

Lemma run_job_Job ev pm job w r w' :
  run_job (E := Empty_set) ev pm job w = (Ok r, w') -> Job r = job.
Proof.
  unfold run_job.
  intros (existing & w1 & _ & H)%io_bind_Ok.
  apply io_bind_Ok in H as (installed & w2 & _ & H).
  destruct (negb (String.eqb existing "") && installed); [by inversion H|].
  apply io_bind_Ok in H as (outcome & w3 & _ & H).
  destruct outcome as [[v c]|e]; [|by inversion H].
  apply io_bind_Ok in H as ([] & w4 & _ & H). by inversion H.
Qed.

(** After a successful result was recorded, the lock structure has the
    entry of the package under its key. *)
Lemma record_result_entry ev edit_manifest t r w t' w' :
  record_result (E := Empty_set) ev edit_manifest t r w = (Ok t', w') ->
  Error r = None ->
  exists pkg,
    Packages (w_lock w') !! packageKey (j_Name (Job r)) (InstalledVersion r) =
      Some pkg /\
    lp_Name pkg = j_Name (Job r) /\ lp_Version pkg = InstalledVersion r.
Proof.
  unfold record_result. intros H Herr. rewrite Herr in H.
  apply io_bind_Ok in H as ([] & w1 & Hadd & H).
  apply io_bind_Ok in H as ([] & w2 & Hedit & H).
  inversion H; subst; clear H.
  assert (Hlock : w_lock w' = w_lock w1).
  { destruct (negb _); [|by inversion Hedit].
    unfold in_fs in Hedit. by inversion Hedit. }
  rewrite Hlock. unfold lock_addPackage, update_lock in Hadd.
  inversion Hadd; subst; clear Hadd. simpl.
  eexists. split; [apply lookup_insert_eq|]. done.
Qed.


Lemma fair_range_elements : fair_range sample_env.
Proof.
  intros keys. split; [apply NoDup_elements|].
  intros k. apply elem_of_elements.
Qed.



Example rootless_second_install :
  let first := install_job (E := Empty_set) sample_env npm_pm keep_manifest
                 rootless_job empty_world in
  let second := run_job (E := Empty_set) sample_env npm_pm rootless_job first.2 in
  (FromCache <$> match second.1 with Ok r => Some r | Err _ => None end) = Some false /\
  w_requests second.2 =
    [ "https://registry.npmjs.org/rootless";
      "https://registry.npmjs.org/rootless/-/rootless-1.0.0.tgz";
      "https://registry.npmjs.org/rootless";
      "https://registry.npmjs.org/rootless/-/rootless-1.0.0.tgz" ].
Proof. vm_compute. split; reflexivity. Qed.

(** ** The pipeline keeps the entries of the lock structure *)

Lemma lock_grows_ret {E A} (a : A) : lock_grows (E := E) (io_ret a).
Proof. intros w r w' [= <- <-]. done. Qed.

Lemma lock_grows_fail {E A} (e : E) : lock_grows (A := A) (io_fail e).
Proof. intros w r w' [= <- <-]. done. Qed.

Lemma lock_grows_bind {E A B} (m : prog world E A) (k : A -> prog world E B) :
  lock_grows m -> (forall a, lock_grows (k a)) -> lock_grows (io_bind m k).
Proof.
  intros Hm Hk w r w'. unfold io_bind.
  destruct (m w) as [[a|e] w1] eqn:Hmw.
  - intros Hkw. etrans; [by eapply Hm | by eapply Hk].
  - intros [= <- <-]. by eapply Hm.
Qed.

Lemma lock_grows_try {E E' A} (m : prog world E A) :
  lock_grows m -> lock_grows (io_try (E' := E') m).
Proof.
  intros Hm w r w'. unfold io_try. destruct (m w) as [r0 w1] eqn:Hmw.
  intros [= <- <-]. by eapply Hm.
Qed.

Lemma lock_grows_map_err {E E' A} (f : E -> E') (m : prog world E A) :
  lock_grows m -> lock_grows (io_map_err f m).
Proof.
  intros Hm w r w'. unfold io_map_err.
  destruct (m w) as [[a|e] w1] eqn:Hmw; intros [= <- <-]; by eapply Hm.
Qed.

Lemma lock_grows_in_fs {E A} (m : io E A) : lock_grows (in_fs m).
Proof.
  intros w r w'. unfold in_fs. destruct (m (w_fs w)) as [r0 fs'].
  by intros [= <- <-].
Qed.

Lemma lock_grows_send {E} url : lock_grows (send_request (E := E) url).
Proof. intros w r w' [= <- <-]. done. Qed.

Lemma lock_grows_read {E A} (f : world -> A) : lock_grows (read_world (E := E) f).
Proof. intros w r w' [= <- <-]. done. Qed.

Lemma lock_grows_pure {E A} (f : world -> result E A) :
  lock_grows (fun w => (f w, w)).
Proof. intros w r w' [= <- <-]. done. Qed.

Lemma lock_grows_addPackage {E} ev name version specifier isDev :
  lock_grows (lock_addPackage (E := E) ev name version specifier isDev).
Proof.
  intros w r w'. unfold lock_addPackage, update_lock. intros [= <- <-]. simpl.
  rewrite dom_insert. set_solver.
Qed.

Lemma lock_grows_fetch ev pm packageName version :
  lock_grows (fetchPackageInfo ev pm packageName version).
Proof.
  unfold fetchPackageInfo. apply lock_grows_bind; [apply lock_grows_send|].
  intros _. apply lock_grows_pure.
Qed.

Lemma lock_grows_download ev pm pkgInfo destPath :
  lock_grows (downloadAndExtract ev pm pkgInfo destPath).
Proof.
  unfold downloadAndExtract. apply lock_grows_bind; [apply lock_grows_send|].
  intros _. destruct (http_tarball ev _) as [|status [tarReader|]];
    [apply lock_grows_fail | |];
    (destruct (negb _); [apply lock_grows_fail|]).
  - apply lock_grows_in_fs.
  - apply lock_grows_fail.
Qed.

Lemma lock_grows_install_resolved ev pm packageName pkgInfo :
  lock_grows (install_resolved ev pm packageName pkgInfo).
Proof.
  unfold install_resolved. apply lock_grows_bind; [apply lock_grows_read|].
  intros installed. destruct installed; [apply lock_grows_ret|].
  apply lock_grows_bind; [apply lock_grows_read|]. intros cached.
  apply lock_grows_bind.
  - destruct cached; [|apply lock_grows_ret].
    apply lock_grows_try, lock_grows_in_fs.
  - intros [[]|e]; [apply lock_grows_ret|].
    apply lock_grows_bind; [apply lock_grows_download|].
    intros _. apply lock_grows_ret.
Qed.

Lemma lock_grows_Install ev pm packageName version :
  lock_grows (Install ev pm packageName version).
Proof.
  unfold Install. apply lock_grows_bind; [apply lock_grows_in_fs|]. intros _.
  apply lock_grows_bind; [apply lock_grows_map_err, lock_grows_fetch|].
  intros pkgInfo. apply lock_grows_install_resolved.
Qed.

Lemma lock_grows_installSimple ev pm packageName version :
  lock_grows (installSimple ev pm packageName version).
Proof.
  unfold installSimple.
  apply lock_grows_bind; [apply lock_grows_map_err, lock_grows_fetch|].
  intros pkgInfo. apply lock_grows_bind; [apply lock_grows_install_resolved|].
  intros installed. apply lock_grows_ret.
Qed.

Lemma lock_grows_install_dependency {E} ev pm depName :
  lock_grows (install_dependency (E := E) ev pm depName).
Proof.
  unfold install_dependency. apply lock_grows_bind; [apply lock_grows_read|].
  intros present. destruct present; [apply lock_grows_ret|].
  apply lock_grows_bind; [apply lock_grows_try, lock_grows_installSimple|].
  intros [installedVersion|e]; [apply lock_grows_addPackage | apply lock_grows_ret].
Qed.

Lemma lock_grows_install_dependencies {E} ev pm depNames :
  lock_grows (install_dependencies (E := E) ev pm depNames).
Proof.
  induction depNames as [|depName rest IH]; simpl; [apply lock_grows_ret|].
  apply lock_grows_bind; [apply lock_grows_install_dependency | by intros _].
Qed.

Lemma lock_grows_InstallDependencies {E} ev pm packageName :
  lock_grows (InstallDependencies (E := E) ev pm packageName).
Proof.
  unfold InstallDependencies. apply lock_grows_bind; [apply lock_grows_read|].
  intros [data|e]; [|apply lock_grows_ret].
  destruct (json_dependencies ev data);
    [apply lock_grows_install_dependencies | apply lock_grows_ret].
Qed.

Lemma lock_grows_run_job {E} ev pm job : lock_grows (run_job (E := E) ev pm job).
Proof.
  unfold run_job. apply lock_grows_bind; [apply lock_grows_read|].
  intros existing. apply lock_grows_bind; [apply lock_grows_read|].
  intros installed. destruct (negb _ && installed); [apply lock_grows_ret|].
  apply lock_grows_bind; [apply lock_grows_try, lock_grows_Install|].
  intros [[v c]|e]; [|apply lock_grows_ret].
  apply lock_grows_bind; [|intros _; apply lock_grows_ret].
  destruct (negb c); [apply lock_grows_InstallDependencies | apply lock_grows_ret].
Qed.

Lemma lock_grows_record_result {E} ev edit_manifest t r :
  lock_grows (record_result (E := E) ev edit_manifest t r).
Proof.
  unfold record_result. destruct (Error r); [apply lock_grows_ret|].
  apply lock_grows_bind; [apply lock_grows_addPackage|]. intros _.
  apply lock_grows_bind; [|intros _; apply lock_grows_ret].
  destruct (negb _); [apply lock_grows_in_fs | apply lock_grows_ret].
Qed.

Lemma recorded_grows lf lf' r :
  dom (Packages lf) ⊆ dom (Packages lf') -> recorded lf r -> recorded lf' r.
Proof. unfold recorded. rewrite <- !elem_of_dom. set_solver. Qed.

(** ** The invariant of the pool *)

Lemma workers_split (ws : list worker_state) i old new :
  ws !! i = Some old ->
  exists before_i after_i,
    ws = before_i ++ old :: after_i /\
    <[i := new]> ws = before_i ++ new :: after_i.
Proof.
  intros Hi. exists (take i ws), (drop (S i) ws). split.
  - by rewrite take_drop_middle.
  - apply insert_take_drop. by eapply lookup_lt_Some.
Qed.

Lemma holding_app ws1 s ws2 :
  holding (ws1 ++ s :: ws2) = holding ws1 ++ holding [s] ++ holding ws2.
Proof. unfold holding. rewrite omap_app. simpl. by destruct s. Qed.

Lemma sending_app ws1 s ws2 :
  sending (ws1 ++ s :: ws2) = sending ws1 ++ sending [s] ++ sending ws2.
Proof. unfold sending. rewrite omap_app. simpl. by destruct s. Qed.

Lemma exited_middle ws1 s ws2 :
  s <> Exited -> Exited ∈ ws1 ++ s :: ws2 -> Exited ∈ ws1 ++ ws2.
Proof.
  intros Hs [H|[H|H]%elem_of_cons]%elem_of_app; [|done|];
    apply elem_of_app; auto.
Qed.

Lemma not_all_exited ws1 s ws2 :
  s <> Exited -> ~ Forall (fun ws => ws = Exited) (ws1 ++ s :: ws2).
Proof.
  intros Hs [_ Hall]%Forall_app. by apply Forall_cons in Hall as [? _].
Qed.

Lemma holding_all_exited ws :
  Forall (fun s => s = Exited) ws -> holding ws = [] /\ sending ws = [].
Proof.
  induction 1 as [|s ws -> _ IH]; [done|]. exact IH.
Qed.

Section SchedulerFacts.

Variable ev : env.
Variable pm : PackageManager.
Variable edit_manifest : string -> string -> bool -> gmap string node -> gmap string node.
Variable setupAllBinaries : gmap string node -> gmap string node.

Local Abbreviation step := (step ev pm edit_manifest setupAllBinaries).
Local Abbreviation reaches := (reaches ev pm edit_manifest setupAllBinaries).

Lemma start_inv jobs maxWorkers w :
  pool_inv jobs maxWorkers (start jobs maxWorkers w).
Proof.
  split; simpl; try done.
  - assert (holding (replicate maxWorkers Idle) = []) as ->.
    { induction maxWorkers; [done|]. by simpl. }
    by rewrite !app_nil_r.
  - assert (sending (replicate maxWorkers Idle) = []) as ->.
    { induction maxWorkers; [done|]. by simpl. }
    done.
  - intros [? [[=] _]%lookup_replicate]%list_elem_of_lookup.
  - apply length_replicate.
  - intros r Hr. by apply elem_of_nil in Hr.
Qed.

Lemma step_inv jobs maxWorkers p p' :
  pool_inv jobs maxWorkers p -> step p p' -> pool_inv jobs maxWorkers p'.
Proof.
  intros [I1 I2 I3 I4 I5 I6 I7 I8] Hstep.
  destruct Hstep as
    [ job rest p Hunsent
    | p Hunsent Hclosed
    | i job rest p Hi Hchan
    | i job r w' p Hi Hrun
    | i r p Hi
    | i p Hi Hchan Hclosed
    | p Hclosed Hresults Hall
    | r rest t' w' p Hdone Hchan Hrec
    | p Hdone Hchan Hresults ].
  - (* the caller sends a job *)
    rewrite Hunsent in *.
    split; simpl; try done.
    + etrans; [exact I1|]. solve_Permutation.
    + intros Hc. by specialize (I3 Hc).
    + intros He. destruct (I4 He) as [Hc _]. by specialize (I3 Hc).
  - (* the caller closes the job channel *)
    rewrite Hunsent in *.
    split; simpl; try done.
    + intros He. destruct (I4 He) as [Hc _]. congruence.
    + intros Hr. destruct (I5 Hr) as [_ Hc]. congruence.
  - (* a worker takes a job *)
    destruct (workers_split _ _ _ (Holding job) Hi) as (ws1 & ws2 & Hws & Hins).
    rewrite Hchan, Hws in *.
    split; simpl; rewrite ?Hins; try done.
    + etrans; [exact I1|]. rewrite !holding_app. simpl. solve_Permutation.
    + etrans; [exact I2|]. rewrite !sending_app. simpl. done.
    + intros He. apply exited_middle in He; [|done].
      destruct I4 as [_ ?]; [|done].
      apply elem_of_app in He as [?|?]; apply elem_of_app; [left|right]; [done|].
      apply elem_of_cons. by right.
    + intros Hr. destruct (I5 Hr) as [Hall _]. by apply not_all_exited in Hall.
    + by rewrite !length_app in *.
  - (* a worker runs its job *)
    destruct (workers_split _ _ _ (Sending r) Hi) as (ws1 & ws2 & Hws & Hins).
    rewrite Hws in *. pose proof (run_job_Job _ _ _ _ _ _ Hrun) as Hjob.
    split; simpl; rewrite ?Hins; try done.
    + etrans; [exact I1|]. rewrite !holding_app. simpl. solve_Permutation.
    + rewrite !sending_app, !fmap_app in *. simpl. rewrite Hjob.
      rewrite I2. solve_Permutation.
    + intros He. apply exited_middle in He; [|done]. apply I4.
      apply elem_of_app in He as [?|?]; apply elem_of_app; [left|right]; [done|].
      apply elem_of_cons. by right.
    + intros Hr. destruct (I5 Hr) as [Hall _]. by apply not_all_exited in Hall.
    + by rewrite !length_app in *.
    + intros r0 Hr0 Herr. eapply recorded_grows; [|by apply I8].
      by eapply (lock_grows_run_job (E := Empty_set)).
  - (* a worker sends its result *)
    destruct (workers_split _ _ _ Idle Hi) as (ws1 & ws2 & Hws & Hins).
    rewrite Hws in *.
    split; simpl; rewrite ?Hins; try done.
    + etrans; [exact I1|]. rewrite !holding_app. simpl. done.
    + rewrite !sending_app, !fmap_app in *. simpl. rewrite I2. simpl.
      solve_Permutation.
    + intros He. apply exited_middle in He; [|done]. apply I4.
      apply elem_of_app in He as [?|?]; apply elem_of_app; [left|right]; [done|].
      apply elem_of_cons. by right.
    + intros Hr. destruct (I5 Hr) as [Hall _]. by apply not_all_exited in Hall.
    + intros Hd. destruct (I6 Hd) as [Hr _]. destruct (I5 Hr) as [Hall _].
      by apply not_all_exited in Hall.
    + by rewrite !length_app in *.
  - (* a worker returns *)
    destruct (workers_split _ _ _ Exited Hi) as (ws1 & ws2 & Hws & Hins).
    unfold set_worker. rewrite Hws in *.
    split; simpl; rewrite ?Hins; try done.
    + etrans; [exact I1|]. rewrite !holding_app. simpl. done.
    + etrans; [exact I2|]. rewrite !sending_app. simpl. done.
    + intros Hr. destruct (I5 Hr) as [Hall _]. by apply not_all_exited in Hall.
    + by rewrite !length_app in *.
  - (* the result channel is closed *)
    split; simpl; try done.
    intros Hd. destruct (I6 Hd) as [Hr _]. congruence.
  - (* the aggregator receives a result *)
    rewrite Hchan in *.
    split; simpl; try done.
    + rewrite !fmap_app, !fmap_cons in *. simpl. rewrite I2. solve_Permutation.
    + intros r0 [Hr0 | ->%list_elem_of_singleton]%elem_of_app Herr.
      * eapply recorded_grows; [|by apply I8].
        by eapply (lock_grows_record_result (E := Empty_set)).
      * destruct (record_result_entry _ _ _ _ _ _ _ Hrec Herr) as (pkg & Hk & _).
        unfold recorded. by rewrite Hk.
  - (* the aggregator is done *)
    split; simpl; try done.
    + by rewrite Hchan in I2.
    + intros _. by apply I5.
Qed.

Lemma reaches_inv jobs maxWorkers w p :
  reaches jobs maxWorkers w p -> pool_inv jobs maxWorkers p.
Proof.
  induction 1 as [|p p' _ IH Hstep]; [apply start_inv | by eapply step_inv].
Qed.

(** When the call returns, every job was run once, every result was
    processed, and the successful ones are recorded. *)
Lemma done_complete jobs maxWorkers w p :
  (0 < maxWorkers)%nat ->
  reaches jobs maxWorkers w p -> progressDone p = true ->
  attempted p ≡ₚ jobs /\ Job <$> handled p ≡ₚ jobs /\
  unsent p = [] /\ jobChan p = [] /\ resultChan p = [] /\
  Forall (fun ws => ws = Exited) (workers p) /\
  forall r, r ∈ handled p -> Error r = None ->
            recorded (w_lock (the_world p)) r.
Proof.
  intros Hpos [I1 I2 I3 I4 I5 I6 I7 I8]%reaches_inv Hdone.
  destruct (I6 Hdone) as [Hclosed Hchan].
  destruct (I5 Hclosed) as [Hall Hjobs].
  destruct (holding_all_exited _ Hall) as [Hh Hs].
  assert (Exited ∈ workers p) as Hex.
  { destruct (workers p) as [|s ws]; [simpl in I7; lia|].
    apply Forall_cons in Hall as [-> _]. apply elem_of_cons. by left. }
  destruct (I4 Hex) as [_ Hjc].
  rewrite (I3 Hjobs), Hjc, Hh in I1. rewrite Hs, Hchan in I2. simpl in I1, I2.
  split; [by symmetry|].
  split; [etrans; [symmetry; exact I2 | by symmetry]|].
  split; [by apply I3|]. by repeat split.
Qed.

Lemma sum_weights ws1 s ws2 :
  sum_list_with worker_weight (ws1 ++ s :: ws2) =
  (sum_list_with worker_weight ws1 + worker_weight s +
   sum_list_with worker_weight ws2)%nat.
Proof. rewrite sum_list_with_app. simpl. lia. Qed.

(** Every step brings the end nearer: no run goes on for ever. *)
Lemma step_decreases p p' : step p p' -> (steps_left p' < steps_left p)%nat.
Proof.
  intros Hstep.
  destruct Hstep as
    [ job rest p Hunsent
    | p Hunsent Hclosed
    | i job rest p Hi Hchan
    | i job r w' p Hi Hrun
    | i r p Hi
    | i p Hi Hchan Hclosed
    | p Hclosed Hresults Hall
    | r rest t' w' p Hdone Hchan Hrec
    | p Hdone Hchan Hresults ];
    unfold steps_left, set_worker; simpl;
    try (destruct (workers_split _ _ _ (Holding job) Hi) as (ws1 & ws2 & Hws & ->));
    try (destruct (workers_split _ _ _ (Sending r) Hi) as (ws1 & ws2 & Hws & ->));
    try (destruct (workers_split _ _ _ Idle Hi) as (ws1 & ws2 & Hws & ->));
    try (destruct (workers_split _ _ _ Exited Hi) as (ws1 & ws2 & Hws & ->));
    rewrite ?Hws, ?Hunsent, ?Hchan, ?Hclosed, ?Hresults, ?Hdone, ?sum_weights,
      ?length_app;
    simpl; lia.
Qed.

Lemma some_worker_alive (ws : list worker_state) :
  Forall (fun s => s = Exited) ws \/
  exists i s, ws !! i = Some s /\ s <> Exited.
Proof.
  induction ws as [|s ws [IH | (i & s' & Hi & Hs')]].
  - by left.
  - destruct s; [right; by exists O, Idle | right; by eexists O, _
                | right; by eexists O, _ | left; by constructor].
  - right. by exists (S i), s'.
Qed.

(** A run that has not returned can take a step: nothing waits for
    ever. *)
Lemma step_possible jobs maxWorkers w p :
  reaches jobs maxWorkers w p -> progressDone p = false ->
  exists p', step p p'.
Proof.
  intros [I1 I2 I3 I4 I5 I6 I7 I8]%reaches_inv Hdone.
  destruct (unsent p) as [|job rest] eqn:Hunsent;
    [|eexists; by eapply step_send].
  destruct (jobs_closed p) eqn:Hclosed;
    [|eexists; by eapply step_close_jobs].
  destruct (some_worker_alive (workers p)) as [Hall | (i & s & Hi & Hs)].
  - destruct (results_closed p) eqn:Hresults;
      [|eexists; by eapply step_close_results].
    destruct (resultChan p) as [|r rest] eqn:Hchan;
      [eexists; by eapply step_done|].
    destruct (record_result (E := Empty_set) ev edit_manifest (progress p) r
                (the_world p)) as [[t'|[]] w'] eqn:Hrec.
    eexists. by eapply step_receive.
  - destruct s as [|job|r|]; [| | |done].
    + destruct (jobChan p) as [|job rest] eqn:Hchan;
        eexists; [by eapply step_exit | by eapply step_take].
    + destruct (run_job (E := Empty_set) ev pm job (the_world p))
        as [[r|[]] w'] eqn:Hrun.
      eexists. by eapply step_run.
    + eexists. by eapply step_result.
Qed.

End SchedulerFacts.

(** ** The schedule is a run *)

Lemma first_alive_Some i ws j s :
  first_alive i ws = Some (j, s) ->
  exists k, j = (i + k)%nat /\ ws !! k = Some s.
Proof.
  revert i. induction ws as [|s0 ws IH]; intros i; [done|].
  destruct s0; simpl; try (intros [= <- <-]; exists O; split; [lia|done]).
  intros (k & -> & Hk)%IH. exists (S k). split; [lia|done].
Qed.

Lemma first_alive_None i ws :
  first_alive i ws = None -> Forall (fun s => s = Exited) ws.
Proof.
  revert i. induction ws as [|s0 ws IH]; intros i; [by constructor|].
  destruct s0; simpl; try done. intros H. constructor; [done|by eapply IH].
Qed.

Section ScheduleFacts.

Variable ev : env.
Variable pm : PackageManager.
Variable edit_manifest : string -> string -> bool -> gmap string node -> gmap string node.
Variable setupAllBinaries : gmap string node -> gmap string node.

Local Abbreviation step := (step ev pm edit_manifest setupAllBinaries).
Local Abbreviation reaches := (reaches ev pm edit_manifest setupAllBinaries).
Local Abbreviation next_step := (next_step ev pm edit_manifest setupAllBinaries).
Local Abbreviation run_pool := (run_pool ev pm edit_manifest setupAllBinaries).

Lemma step_cast p q q' : step p q -> q = q' -> step p q'.
Proof. by intros H <-. Qed.

Lemma next_step_step p p' : next_step p = Some p' -> step p p'.
Proof.
  unfold next_step.
  destruct (unsent p) as [|job rest] eqn:Hunsent.
  2: { intros [= <-]. by eapply step_send. }
  destruct (jobs_closed p) eqn:Hclosed; simpl.
  2: { intros [= <-]. eapply step_cast; [by eapply step_close_jobs|done]. }
  destruct (first_alive 0 (workers p)) as [[i s]|] eqn:Halive.
  - apply first_alive_Some in Halive as (k & -> & Hk). simpl.
    destruct s as [|job|r|]; [| | |done].
    + destruct (jobChan p) as [|job rest] eqn:Hchan; intros [= <-].
      * by eapply step_exit.
      * eapply step_cast; [by eapply step_take|].
        by rewrite Hunsent, Hclosed.
    + destruct (run_job (E := Empty_set) ev pm job (the_world p))
        as [[r|[]] w'] eqn:Hrun.
      intros [= <-]. eapply step_cast; [by eapply step_run|].
      by rewrite Hunsent, Hclosed.
    + intros [= <-]. eapply step_cast; [by eapply step_result|].
      by rewrite Hunsent, Hclosed.
  - apply first_alive_None in Halive.
    destruct (results_closed p) eqn:Hresults; simpl.
    2: { intros [= <-]. eapply step_cast; [by eapply step_close_results|].
         by rewrite Hunsent, Hclosed. }
    destruct (progressDone p) eqn:Hdone; [done|].
    destruct (resultChan p) as [|r rest] eqn:Hchan.
    + intros [= <-]. eapply step_cast; [by eapply step_done|].
      by rewrite Hunsent, Hclosed.
    + destruct (record_result (E := Empty_set) ev edit_manifest (progress p) r
                  (the_world p)) as [[t'|[]] w'] eqn:Hrec.
      intros [= <-]. eapply step_cast; [by eapply step_receive|].
      by rewrite Hunsent, Hclosed, Hresults.
Qed.

Lemma run_pool_reaches jobs maxWorkers w n p :
  reaches jobs maxWorkers w p -> reaches jobs maxWorkers w (run_pool n p).
Proof.
  revert p. induction n as [|n IH]; intros p Hp; [done|].
  simpl. destruct (next_step p) as [p'|] eqn:Hnext; [|done].
  apply IH. eapply reaches_step; [exact Hp|]. by apply next_step_step.
Qed.

(** From every state of a run the return can be reached. *)
Lemma return_reachable jobs maxWorkers w p :
  reaches jobs maxWorkers w p ->
  exists q, reaches jobs maxWorkers w q /\ progressDone q = true.
Proof.
  remember (steps_left p) as n eqn:Hn. revert p Hn.
  induction (lt_wf n) as [n _ IH]. intros p -> Hp.
  destruct (progressDone p) eqn:Hdone; [by exists p|].
  destruct (step_possible _ _ _ _ _ _ _ _ Hp Hdone) as [p' Hstep].
  apply (IH (steps_left p') (step_decreases _ _ _ _ _ _ Hstep) p' eq_refl).
  by eapply reaches_step.
Qed.


End ScheduleFacts.


